(** * chunker-cli: the chunking strategies of [chunker.py]

    A shallow embedding of the three chunking strategies
    ([TokenBasedChunking], [LineBasedChunking], [ParagraphBasedChunking]),
    of the [Chunker] dispatcher and of the factory [get_chunking_strategy],
    together with the Python string primitives they call
    ([str.splitlines], [str.split], [str.join]). *)

From Equations Require Import Equations.
From Stdlib Require Import String Ascii List ZArith NArith Bool Lia
  DecimalString.
Import ListNotations.

Local Open Scope Z_scope.

(* ===================================================================== *)
(** ** Python strings *)
(* ===================================================================== *)

(** A Python [str] is a sequence of Unicode code points. *)
Definition char : Type := N.
Definition str : Type := list char.

(** Literals: every character of a Rocq string denotes its code point. *)
Definition pystr (s : string) : str :=
  map N_of_ascii (list_ascii_of_string s).

Definition LF : char := 10%N.
Definition CR : char := 13%N.
Definition SPACE : char := 32%N.

Definition str_eqb (a b : str) : bool :=
  if list_eq_dec N.eq_dec a b then true else false.

(** [len(x)] as a Python integer. *)
Definition len {A : Type} (l : list A) : Z := Z.of_nat (length l).

(** Truth value of a Python list: non-empty. *)
Definition truthy {A : Type} (l : list A) : bool :=
  match l with [] => false | _ :: _ => true end.

(** Characters at which [str.splitlines] breaks a line. *)
Definition is_linebreak (c : char) : bool :=
  match c with
  | 0x0A | 0x0B | 0x0C | 0x0D
  | 0x1C | 0x1D | 0x1E
  | 0x85 | 0x2028 | 0x2029 => true
  | _ => false
  end%N.

(** Characters for which [str.isspace] holds; [str.split()] separates words
    at runs of them. *)
Definition is_space (c : char) : bool :=
  ((0x09 <=? c) && (c <=? 0x0D)
   || (0x1C <=? c) && (c <=? 0x20)
   || (c =? 0x85) || (c =? 0xA0) || (c =? 0x1680)
   || (0x2000 <=? c) && (c <=? 0x200A)
   || (c =? 0x2028) || (c =? 0x2029) || (c =? 0x202F)
   || (c =? 0x205F) || (c =? 0x3000))%N.

(** [sep.join(parts)]. *)
Fixpoint join (sep : str) (parts : list str) : str :=
  match parts with
  | [] => []
  | [p] => p
  | p :: rest => p ++ sep ++ join sep rest
  end.

(** [text.splitlines()]: a line ends at a line break ("\r\n" counts as
    one); the characters after the last break form a last line only when
    there are any.  [cur] holds the characters of the line being read,
    most recent first. *)
Fixpoint splitlines_from (cur : str) (s : str) : list str :=
  match s with
  | [] => match cur with [] => [] | _ :: _ => [rev cur] end
  | c :: s' =>
      if is_linebreak c then
        match s' with
        | c' :: s'' =>
            if (c =? CR)%N && (c' =? LF)%N
            then rev cur :: splitlines_from [] s''
            else rev cur :: splitlines_from [] s'
        | [] => [rev cur]
        end
      else splitlines_from (c :: cur) s'
  end.

Definition splitlines (text : str) : list str := splitlines_from [] text.

(** [text.split()] with no separator: the maximal runs of characters that
    are not whitespace.  [cur] is the word being read, most recent
    character first. *)
Fixpoint split_ws_from (cur : str) (s : str) : list str :=
  match s with
  | [] => if truthy cur then [rev cur] else []
  | c :: s' =>
      if is_space c
      then (if truthy cur then [rev cur] else []) ++ split_ws_from [] s'
      else split_ws_from (c :: cur) s'
  end.

Definition split_ws (text : str) : list str := split_ws_from [] text.

(** [s.startswith(sep)]. *)
Fixpoint startswith (s sep : str) : bool :=
  match sep, s with
  | [], _ => true
  | _ :: _, [] => false
  | a :: sep', b :: s' => (a =? b)%N && startswith s' sep'
  end.

(** [text.split(sep)] for the separator [a :: sep'] (so, not empty): the
    fields between the occurrences of the separator, found left to right
    without overlap; after an occurrence the scan resumes behind it.
    [cur] is the field being read, most recent character first. *)
Equations? split_from (a : char) (sep' : str) (cur : str) (s : str)
  : list str by wf (length s) lt :=
  split_from a sep' cur [] := [rev cur];
  split_from a sep' cur (c :: s') with startswith (c :: s') (a :: sep') => {
    | true := rev cur :: split_from a sep' [] (skipn (length sep') s');
    | false := split_from a sep' (c :: cur) s' }.
Proof.
  rewrite length_skipn. simpl. lia.
Qed.

(* ===================================================================== *)
(** ** Exceptions *)
(* ===================================================================== *)

(** A raised exception: the name of its class and its message. *)
Record exn : Type := mk_exn { exn_class : string; exn_msg : str }.

Definition ValueError (msg : str) : exn := mk_exn "ValueError" msg.

(** The outcome of a call: a returned value or a raised exception. *)
Inductive result (A : Type) : Type :=
| Ok (a : A)
| Raise (e : exn).
Arguments Ok {A} a.
Arguments Raise {A} e.

Definition bind {A B : Type} (r : result A) (k : A -> result B) : result B :=
  match r with
  | Ok a => k a
  | Raise e => Raise e
  end.

Notation "x <- r ;; k" := (bind r (fun x => k))
  (at level 61, r at next level, right associativity).

(** [r] raises an exception of class [cls]. *)
Definition raises {A : Type} (cls : string) (r : result A) : Prop :=
  match r with
  | Ok _ => False
  | Raise e => exn_class e = cls
  end.

(** [text.split(sep)]; an empty separator is a [ValueError]. *)
Definition split (text sep : str) : result (list str) :=
  match sep with
  | [] => Raise (ValueError (pystr "empty separator"))
  | a :: sep' => Ok (split_from a sep' [] text)
  end.

(* ===================================================================== *)
(** ** Chunks and the accumulation loops *)
(* ===================================================================== *)

(** A chunk is a pair (text, size). *)
Definition Chunk : Type := (str * Z)%type.

(** The tokenizer ([tiktoken.Encoding]) is an external collaborator, used
    through [encode] and [decode] only; token ids are non-negative
    integers. *)
Definition token : Type := N.

Record Encoding : Type := mk_Encoding {
  encode : str -> list token;
  decode : list token -> str
}.

(** The local variables of a [chunk] method while its loop runs; [U] is
    the kind of unit gathered (tokens, lines or paragraphs). *)
Record loop_state (U : Type) : Type := mk_state {
  chunks : list Chunk;
  current_chunk : list U;
  current_chunk_size : Z
}.
Arguments mk_state {U}.
Arguments chunks {U}.
Arguments current_chunk {U}.
Arguments current_chunk_size {U}.

Definition initial {U : Type} : loop_state U := mk_state [] [] 0.

Module TokenBasedChunking.

(** Body of [for token in tokens]. *)
Definition body (encoder : Encoding) (chunk_size : Z)
           (st : loop_state token) (tok : token) : loop_state token :=
  let st :=
    if current_chunk_size st >=? chunk_size then
      let chunk_text := decode encoder (current_chunk st) in
      mk_state (chunks st ++ [(chunk_text, len (current_chunk st))]) [] 0
    else st in
  mk_state (chunks st) (current_chunk st ++ [tok]) (current_chunk_size st + 1).

(** The final [if current_chunk:] and the [return]. *)
Definition finish (encoder : Encoding) (st : loop_state token) : list Chunk :=
  if truthy (current_chunk st) then
    let chunk_text := decode encoder (current_chunk st) in
    chunks st ++ [(chunk_text, len (current_chunk st))]
  else chunks st.

Definition chunk (encoder : Encoding) (text : str) (chunk_size : Z)
  : list Chunk :=
  let tokens := encode encoder text in
  finish encoder (fold_left (body encoder chunk_size) tokens initial).

End TokenBasedChunking.

(** [LineBasedChunking.chunk] and [ParagraphBasedChunking.chunk] run the
    same loop, on lines joined by " " and on paragraphs joined by "\n\n". *)
Module WordCount.
Section Loop.
Variable joiner : str.
Variable chunk_size : Z.

(** Body of [for line in lines] / [for paragraph in paragraphs]. *)
Definition body (st : loop_state str) (unit : str) : loop_state str :=
  let unit_size := len (split_ws unit) in
  let st :=
    if (current_chunk_size st + unit_size >? chunk_size)
       && truthy (current_chunk st)
    then mk_state (chunks st ++ [(join joiner (current_chunk st),
                                  current_chunk_size st)]) [] 0
    else st in
  mk_state (chunks st) (current_chunk st ++ [unit])
           (current_chunk_size st + unit_size).

(** The final [if current_chunk:] and the [return]. *)
Definition finish (st : loop_state str) : list Chunk :=
  if truthy (current_chunk st)
  then chunks st ++ [(join joiner (current_chunk st), current_chunk_size st)]
  else chunks st.

Definition run (units : list str) : list Chunk :=
  finish (fold_left body units initial).

End Loop.
End WordCount.

Module LineBasedChunking.
Definition chunk (text : str) (chunk_size : Z) : list Chunk :=
  let lines := splitlines text in
  WordCount.run [SPACE] chunk_size lines.
End LineBasedChunking.

Module ParagraphBasedChunking.
Definition chunk (text : str) (chunk_size : Z) : result (list Chunk) :=
  paragraphs <- split text [LF; LF] ;;
  Ok (WordCount.run [LF; LF] chunk_size paragraphs).
End ParagraphBasedChunking.

(* ===================================================================== *)
(** ** Strategies, dispatcher and factory *)
(* ===================================================================== *)

Inductive ChunkingStrategy : Type :=
| TokenBased (encoder : Encoding)
| LineBased
| ParagraphBased.

(** The method [chunk] of a strategy object. *)
Definition chunk (self : ChunkingStrategy) (text : str) (chunk_size : Z)
  : result (list Chunk) :=
  match self with
  | TokenBased encoder => Ok (TokenBasedChunking.chunk encoder text chunk_size)
  | LineBased => Ok (LineBasedChunking.chunk text chunk_size)
  | ParagraphBased => ParagraphBasedChunking.chunk text chunk_size
  end.

Record Chunker : Type := mk_Chunker { strategy : ChunkingStrategy }.

Definition chunk_text (self : Chunker) (text : str) (chunk_size : Z)
  : result (list Chunk) :=
  chunk (strategy self) text chunk_size.

(** [encoder = None] is the default argument. *)
Definition get_chunking_strategy (strategy_name : str)
           (encoder : option Encoding) : result ChunkingStrategy :=
  if str_eqb strategy_name (pystr "token") then
    match encoder with
    | None =>
        Raise (ValueError (pystr "Encoder is required for token-based chunking"))
    | Some e => Ok (TokenBased e)
    end
  else if str_eqb strategy_name (pystr "line") then Ok LineBased
  else if str_eqb strategy_name (pystr "paragraph") then Ok ParagraphBased
  else Raise (ValueError (pystr "Unknown chunking strategy: " ++ strategy_name)).

(** A tokenizer whose tokens are the code points themselves. *)
Definition codepoint_encoding : Encoding :=
  mk_Encoding (fun s => s) (fun l => l).

(** The inputs of the two literal cases of the specification. *)
Definition line_example : str :=
  pystr "a b c" ++ [LF] ++ pystr "d" ++ [LF] ++ pystr "e f g h".

Definition paragraph_example : str :=
  pystr "alpha beta" ++ [LF; LF] ++ pystr "gamma" ++ [LF; LF]
  ++ pystr "delta epsilon zeta".

(* ===================================================================== *)
(** ** [utils.py]: [chunk_iterable] *)
(* ===================================================================== *)

(** The generator runs over a finite iterable, here a list; what it yields
    is collected in order.  A yielded list is never touched again
    ([chunk = []] binds a fresh list), so the yielded values are
    independent.  The state is what was yielded so far and the local
    [chunk]. *)
Definition chunk_iterable_body {A : Type} (chunk_size : Z)
           (st : list (list A) * list A) (item : A)
  : list (list A) * list A :=
  let chunk := snd st ++ [item] in
  if len chunk =? chunk_size then (fst st ++ [chunk], [])
  else (fst st, chunk).

Definition chunk_iterable {A : Type} (iterable : list A) (chunk_size : Z)
  : list (list A) :=
  let st := fold_left (chunk_iterable_body chunk_size) iterable ([], []) in
  if truthy (snd st) then fst st ++ [snd st] else fst st.

(* ===================================================================== *)
(** ** [output_handlers.py]: the XML writers *)
(* ===================================================================== *)

Definition QUOTE : char := 34%N.
Definition AMP : char := 38%N.
Definition LT : char := 60%N.
Definition GT : char := 62%N.

(** [data.replace(old, new)] for a one-character [old]. *)
Definition replace_char (old : char) (new : str) (data : str) : str :=
  flat_map (fun c => if (c =? old)%N then new else [c]) data.

(** [xml.sax.saxutils.escape(data)]: three replacements, "&" first. *)
Definition xml_escape (data : str) : str :=
  let data := replace_char AMP (pystr "&amp;") data in
  let data := replace_char GT (pystr "&gt;") data in
  let data := replace_char LT (pystr "&lt;") data in
  data.

(** An integer inside an f-string: its decimal notation. *)
Definition str_of_int (z : Z) : str :=
  pystr (NilZero.string_of_int (Z.to_int z)).

Module XmlOutputHandler.

(** Body of [for chunk, token_count in chunks]: three more lines. *)
Definition body (lines : list str) (c : Chunk) : list str :=
  let '(chunk, token_count) := c in
  let lines :=
    lines ++ [pystr "  <chunk tokens=" ++ [QUOTE] ++ str_of_int token_count
              ++ [QUOTE] ++ pystr ">"] in
  let lines := lines ++ [pystr "    " ++ xml_escape chunk] in
  lines ++ [pystr "  </chunk>"].


End XmlOutputHandler.

Module LineXmlOutputHandler.


End LineXmlOutputHandler.

(* ===================================================================== *)
(** ** Running the line and paragraph loops *)
(* ===================================================================== *)

(** The definitions above fix the types of the arguments and fold over the
    units.  Here the two methods are run step by step instead: the
    arguments are Python values whose kind is only known when they are
    used, the [for] loop advances a position in the list it iterates over,
    and a run is cut off when its budget of steps is used up. *)

(** The kinds of value a caller passes for [text] and [chunk_size]. *)
Inductive pyval : Type :=
| PyNone
| PyInt (z : Z)
| PyStr (s : str).

Definition AttributeError (msg : str) : exn := mk_exn "AttributeError" msg.
Definition TypeError (msg : str) : exn := mk_exn "TypeError" msg.

(** The name of the type of a value, as error messages show it. *)
Definition type_name (v : pyval) : str :=
  match v with
  | PyNone => pystr "NoneType"
  | PyInt _ => pystr "int"
  | PyStr _ => pystr "str"
  end.

Definition no_attribute (v : pyval) (name : str) : exn :=
  AttributeError (pystr "'" ++ type_name v ++ pystr "' object has no attribute '"
                  ++ name ++ pystr "'").

(** [text.splitlines()]: only a [str] has the method. *)
Definition py_splitlines (text : pyval) : result (list str) :=
  match text with
  | PyStr s => Ok (splitlines s)
  | _ => Raise (no_attribute text (pystr "splitlines"))
  end.

(** [text.split(sep)]: only a [str] has the method. *)
Definition py_split (text : pyval) (sep : str) : result (list str) :=
  match text with
  | PyStr s => split s sep
  | _ => Raise (no_attribute text (pystr "split"))
  end.

(** [a > b] for an integer [a]: [b] must be an integer too. *)
Definition py_int_gt (a : Z) (b : pyval) : result bool :=
  match b with
  | PyInt n => Ok (a >? n)
  | _ => Raise (TypeError (pystr "'>' not supported between instances of 'int' and '"
                           ++ type_name b ++ pystr "'"))
  end.

Module Exec.

(** The loop at work: the list iterated over, the position of its
    iterator, and the local variables. *)
Record frame : Type := mk_frame {
  units : list str;
  position : nat;
  locals : loop_state str
}.

Inductive step_result : Type :=
| Continue (f : frame)
| Exit (st : loop_state str)
| Fail (e : exn).

Section Loop.
Variable joiner : str.
Variable chunk_size : pyval.

(** One turn of [for unit in units]: the iterator is asked for the next
    unit and, when there is one, the body is run; the comparison with
    [chunk_size] comes before the test of [current_chunk]. *)
Definition step (f : frame) : step_result :=
  match nth_error (units f) (position f) with
  | None => Exit (locals f)
  | Some unit =>
      let st := locals f in
      let unit_size := len (split_ws unit) in
      match py_int_gt (current_chunk_size st + unit_size) chunk_size with
      | Raise e => Fail e
      | Ok over =>
          let st :=
            if over && truthy (current_chunk st)
            then mk_state (chunks st ++ [(join joiner (current_chunk st),
                                          current_chunk_size st)]) [] 0
            else st in
          Continue
            (mk_frame (units f) (S (position f))
                      (mk_state (chunks st) (current_chunk st ++ [unit])
                                (current_chunk_size st + unit_size)))
      end
  end.

(** At most [fuel] turns; [None] when the loop is still running then. *)
Fixpoint run (fuel : nat) (f : frame) : option (result (loop_state str)) :=
  match fuel with
  | O => None
  | S fuel' =>
      match step f with
      | Continue f' => run fuel' f'
      | Exit st => Some (Ok st)
      | Fail e => Some (Raise e)
      end
  end.

(** A whole call, given what splitting the text gave: the loop, then the
    final [if current_chunk:] and the [return]. *)
Definition call (fuel : nat) (split_text : result (list str))
  : option (result (list Chunk)) :=
  match split_text with
  | Raise e => Some (Raise e)
  | Ok us =>
      match run fuel (mk_frame us 0 initial) with
      | None => None
      | Some (Raise e) => Some (Raise e)
      | Some (Ok st) => Some (Ok (WordCount.finish joiner st))
      end
  end.
End Loop.

(** [LineBasedChunking.chunk(text, chunk_size)]. *)
Definition line_chunk (fuel : nat) (text chunk_size : pyval)
  : option (result (list Chunk)) :=
  call [SPACE] chunk_size fuel (py_splitlines text).

(** [ParagraphBasedChunking.chunk(text, chunk_size)]. *)
Definition paragraph_chunk (fuel : nat) (text chunk_size : pyval)
  : option (result (list Chunk)) :=
  call [LF; LF] chunk_size fuel (py_split text [LF; LF]).

End Exec.

(* ===================================================================== *)
(** ** Proof device: the groups of units behind the chunks *)
(* ===================================================================== *)

(** Every loop closes the current group of units when a test on the group
    and the next unit says so.  [groups] replays a loop keeping the groups
    themselves instead of their texts and sizes. *)
Section Groups.
Context {U : Type}.
Variable flush : list U -> U -> bool.

Definition gstep (st : list (list U) * list U) (u : U)
  : list (list U) * list U :=
  if flush (snd st) u then (fst st ++ [snd st], [u])
  else (fst st, snd st ++ [u]).

Definition gfinish (st : list (list U) * list U) : list (list U) :=
  if truthy (snd st) then fst st ++ [snd st] else fst st.

Definition groups (units : list U) : list (list U) :=
  gfinish (fold_left gstep units ([], [])).
End Groups.

(** Number of whitespace-separated words of a unit, of a group. *)
Definition words (u : str) : Z := len (split_ws u).

Definition wsize (g : list str) : Z := fold_right (fun u n => words u + n) 0 g.

Definition word_flush (chunk_size : Z) (cur : list str) (u : str) : bool :=
  (wsize cur + words u >? chunk_size) && truthy cur.

Definition word_chunk (joiner : str) (g : list str) : Chunk :=
  (join joiner g, wsize g).

Definition token_flush (chunk_size : Z) (cur : list token) (_ : token) : bool :=
  len cur >=? chunk_size.

Definition token_chunk (encoder : Encoding) (g : list token) : Chunk :=
  (decode encoder g, len g).

(** What the size invariant of the specification asks of one chunk: within
    the target, or made of a single unit that is itself over the target. *)
Definition token_chunk_ok (encoder : Encoding) (tokens : list token)
           (chunk_size : Z) (c : Chunk) : Prop :=
  snd c <= chunk_size \/
  exists tok, In tok tokens /\ c = (decode encoder [tok], 1) /\ chunk_size < 1.

Definition word_chunk_ok (units : list str) (chunk_size : Z) (c : Chunk)
  : Prop :=
  snd c <= chunk_size \/
  exists u, In u units /\ c = (u, words u) /\ chunk_size < words u.

(** The names the factory knows, and the two ways it can fail. *)
Definition strategy_names : list str :=
  [pystr "token"; pystr "line"; pystr "paragraph"].

Definition factory_fails (strategy_name : str) (encoder : option Encoding)
  : Prop :=
  ~ In strategy_name strategy_names
  \/ (strategy_name = pystr "token" /\ encoder = None).

(** [chain R l]: [R] holds between every two neighbours of [l]. *)
Fixpoint chain {A : Type} (R : A -> A -> Prop) (l : list A) : Prop :=
  match l with
  | a :: (b :: _) as tl => R a b /\ chain R tl
  | _ => True
  end.

(** A group was closed because the first unit of the next one did not fit
    any more. *)
Definition closed_when_full (chunk_size : Z) (g next : list str) : Prop :=
  exists u rest, next = u :: rest /\ chunk_size < wsize g + words u.

(** Sum of a list of sizes. *)
Definition total (sizes : list Z) : Z := fold_right Z.add 0 sizes.

(** What [xml_escape] writes for one character. *)
Definition escape_char (c : char) : str :=
  if (c =? AMP)%N then pystr "&amp;"
  else if (c =? GT)%N then pystr "&gt;"
  else if (c =? LT)%N then pystr "&lt;"
  else [c].




(* ===================================================================== *)
(** ** Lists and strings *)
(* ===================================================================== *)

Lemma truthy_true {A : Type} (l : list A) : truthy l = true <-> l <> [].
Proof. destruct l; simpl; split; congruence. Qed.

Lemma len_app_single {A : Type} (l : list A) (x : A) :
  len (l ++ [x]) = len l + 1.
Proof. unfold len. rewrite length_app. simpl. lia. Qed.

Lemma wsize_app (g h : list str) : wsize (g ++ h) = wsize g + wsize h.
Proof. induction g as [|u g IH]; simpl; [reflexivity | rewrite IH; lia]. Qed.

Lemma join_cons (sep p : str) (rest : list str) :
  rest <> [] -> join sep (p :: rest) = p ++ sep ++ join sep rest.
Proof. destruct rest; [congruence | reflexivity]. Qed.

Lemma join_app (sep : str) (a b : list str) :
  a <> [] -> b <> [] ->
  join sep (a ++ b) = join sep a ++ sep ++ join sep b.
Proof.
  induction a as [|p a IH]; intros Ha Hb; [congruence|].
  destruct a as [|q a].
  - simpl app. now rewrite join_cons.
  - change ((p :: q :: a) ++ b) with (p :: ((q :: a) ++ b)).
    rewrite join_cons by discriminate.
    rewrite IH by (discriminate || assumption).
    rewrite (join_cons sep p (q :: a)) by discriminate.
    now rewrite <- !app_assoc.
Qed.

Lemma concat_nonempty {A : Type} (gs : list (list A)) :
  gs <> [] -> Forall (fun g => g <> []) gs -> concat gs <> [].
Proof.
  destruct gs as [|g gs]; [congruence|].
  intros _ H. inversion_clear H. destruct g; [congruence | discriminate].
Qed.

(** Joining the joined groups is joining all the units. *)
Lemma join_concat (sep : str) (gs : list (list str)) :
  Forall (fun g => g <> []) gs ->
  join sep (map (join sep) gs) = join sep (concat gs).
Proof.
  induction gs as [|g gs IH]; intros H; [reflexivity|].
  inversion_clear H as [|? ? Hg Hgs].
  destruct gs as [|h gs].
  - simpl. now rewrite app_nil_r.
  - change (map (join sep) (g :: h :: gs))
      with (join sep g :: map (join sep) (h :: gs)).
    rewrite join_cons by discriminate.
    rewrite IH by assumption.
    change (concat (g :: h :: gs)) with (g ++ concat (h :: gs)).
    rewrite join_app; auto using concat_nonempty.
    apply concat_nonempty; [discriminate | assumption].
Qed.

(** *** Words of joined units *)

Lemma split_ws_from_break (a : str) : forall (cur : str) (w : char) (b : str),
  is_space w = true ->
  split_ws_from cur (a ++ w :: b) = split_ws_from cur a ++ split_ws_from [] b.
Proof.
  induction a as [|c a IH]; intros cur w b Hw; simpl.
  - now rewrite Hw.
  - destruct (is_space c).
    + rewrite IH by assumption. now rewrite app_assoc.
    + now apply IH.
Qed.

Lemma split_ws_from_spaces (j b : str) :
  forallb is_space j = true ->
  split_ws_from [] (j ++ b) = split_ws_from [] b.
Proof.
  induction j as [|w j IH]; simpl; [reflexivity|].
  intros H. apply andb_prop in H as [Hw Hj]. rewrite Hw. now apply IH.
Qed.

Lemma split_ws_sep (j a b : str) :
  j <> [] -> forallb is_space j = true ->
  split_ws (a ++ j ++ b) = split_ws a ++ split_ws b.
Proof.
  destruct j as [|w j]; [congruence|]. intros _ H.
  simpl in H. apply andb_prop in H as [Hw Hj].
  unfold split_ws. simpl app.
  rewrite split_ws_from_break by assumption.
  now rewrite split_ws_from_spaces.
Qed.

(** A whitespace joiner neither merges nor adds words. *)
Lemma words_join (j : str) (g : list str) :
  j <> [] -> forallb is_space j = true ->
  words (join j g) = wsize g.
Proof.
  intros Hne Hsp. induction g as [|u g IH]; [reflexivity|].
  destruct g as [|v g].
  - simpl. lia.
  - rewrite join_cons by discriminate.
    unfold words in *. rewrite split_ws_sep by assumption.
    unfold len in *. rewrite length_app, Nat2Z.inj_add, IH. reflexivity.
Qed.

(** *** [split] and [join] *)

Lemma startswith_skipn (sep s : str) :
  startswith s sep = true -> s = sep ++ skipn (length sep) s.
Proof.
  revert s. induction sep as [|a sep IH]; intros [|b s]; simpl;
    try congruence.
  intros H. apply andb_prop in H as [Hab Hs].
  apply N.eqb_eq in Hab as ->. f_equal. now apply IH.
Qed.

Lemma split_from_nonempty (a : char) (sep' cur s : str) :
  split_from a sep' cur s <> [].
Proof.
  funelim (split_from a sep' cur s); simp split_from;
    discriminate || assumption.
Qed.

Lemma join_split_from (a : char) (sep' cur s : str) :
  join (a :: sep') (split_from a sep' cur s) = rev cur ++ s.
Proof.
  funelim (split_from a sep' cur s); simp split_from.
  - simpl. now rewrite app_nil_r.
  - rewrite join_cons by apply split_from_nonempty.
    match goal with IH : join _ _ = rev [] ++ _ |- _ => rewrite IH end.
    match goal with E : startswith _ _ = true |- _ =>
      apply startswith_skipn in E; simpl in E; injection E as -> E end.
    simpl. congruence.
  - match goal with IH : join _ _ = rev (_ :: _) ++ _ |- _ => rewrite IH end.
    simpl. now rewrite <- app_assoc.
Qed.

(** *** [splitlines] *)

Lemma splitlines_from_nil (cur s : str) :
  splitlines_from cur s = [] <-> cur = [] /\ s = [].
Proof.
  revert cur. induction s as [|c s IH]; intros cur.
  - destruct cur; simpl; split; try tauto; try discriminate.
    intros [H _]; discriminate.
  - simpl. destruct (is_linebreak c).
    + destruct s as [|c' s'].
      * split; [discriminate | intros [_ H]; discriminate].
      * destruct ((c =? CR)%N && (c' =? LF)%N);
          (split; [discriminate | intros [_ H]; discriminate]).
    + rewrite IH. split; [intros [H _]; discriminate | intros [_ H]; discriminate].
Qed.

Lemma splitlines_nil (text : str) : splitlines text = [] <-> text = [].
Proof.
  unfold splitlines. rewrite splitlines_from_nil. tauto.
Qed.

(* ===================================================================== *)
(** ** The groups of units *)
(* ===================================================================== *)

Section GroupsFacts.
Context {U : Type}.
Variable flush : list U -> U -> bool.

Lemma gstep_concat st u :
  concat (fst (gstep flush st u)) ++ snd (gstep flush st u)
  = (concat (fst st) ++ snd st) ++ [u].
Proof.
  unfold gstep. destruct (flush (snd st) u); simpl.
  - rewrite concat_app. simpl. now rewrite app_nil_r.
  - now rewrite app_assoc.
Qed.

Lemma gfinish_concat (st : list (list U) * list U) :
  concat (gfinish st) = concat (fst st) ++ snd st.
Proof.
  unfold gfinish. destruct (snd st) as [|u cur]; simpl.
  - now rewrite app_nil_r.
  - rewrite concat_app. simpl. now rewrite app_nil_r.
Qed.

Lemma fold_gstep_concat units : forall st,
  concat (gfinish (fold_left (gstep flush) units st))
  = (concat (fst st) ++ snd st) ++ units.
Proof.
  induction units as [|u units IH]; intros st; simpl.
  - now rewrite gfinish_concat, app_nil_r.
  - rewrite IH, gstep_concat. now rewrite <- app_assoc.
Qed.

(** No unit is lost, repeated or moved. *)
Lemma groups_concat units : concat (groups flush units) = units.
Proof. unfold groups. now rewrite fold_gstep_concat. Qed.

Lemma groups_nil units : groups flush units = [] <-> units = [].
Proof.
  split.
  - intros H. rewrite <- (groups_concat units), H. reflexivity.
  - intros ->. reflexivity.
Qed.

(** Invariants of the groups: [P] for the closed ones, [J] for the one
    being filled. *)
Section Invariant.
Variables (P J : list U -> Prop).
Hypothesis J_start : J [].
Hypothesis J_flush : forall cur u,
  J cur -> flush cur u = true -> P cur /\ J [u].
Hypothesis J_keep : forall cur u,
  J cur -> flush cur u = false -> J (cur ++ [u]).
Hypothesis J_finish : forall cur, J cur -> cur <> [] -> P cur.

Lemma fold_gstep_invariant units : forall st,
  Forall P (fst st) -> J (snd st) ->
  Forall P (gfinish (fold_left (gstep flush) units st)).
Proof.
  induction units as [|u units IH]; intros st HP HJ; simpl.
  - unfold gfinish. destruct (snd st) as [|x cur] eqn:E; simpl; auto.
    apply Forall_app. split; auto. constructor; auto.
    apply J_finish; [congruence | discriminate].
  - apply IH; unfold gstep; destruct (flush (snd st) u) eqn:E; simpl; auto.
    + apply Forall_app. split; auto. constructor; auto.
      now apply (J_flush _ u).
    + now apply (J_flush (snd st)).
Qed.

Lemma groups_invariant units : Forall P (groups flush units).
Proof. apply fold_gstep_invariant; simpl; auto. Qed.
End Invariant.
End GroupsFacts.

(** The groups of lines and paragraphs are never empty. *)
Lemma word_groups_nonempty (chunk_size : Z) (units : list str) :
  Forall (fun g => g <> []) (groups (word_flush chunk_size) units).
Proof.
  apply groups_invariant with (J := fun _ => True); auto.
  intros cur u _ H. unfold word_flush in H.
  apply andb_prop in H as [_ H]. split; [now apply truthy_true | exact I].
Qed.

(** The chunks of lines and paragraphs are their groups, joined and
    sized. *)
Lemma word_fold_groups (joiner : str) (chunk_size : Z) (units : list str) :
  forall (st : loop_state str) (gst : list (list str) * list str),
  chunks st = map (word_chunk joiner) (fst gst) ->
  current_chunk st = snd gst ->
  current_chunk_size st = wsize (snd gst) ->
  WordCount.finish joiner (fold_left (WordCount.body joiner chunk_size) units st)
  = map (word_chunk joiner)
        (gfinish (fold_left (gstep (word_flush chunk_size)) units gst)).
Proof.
  induction units as [|u units IH]; intros st gst Hc Hcur Hsz; simpl.
  - unfold WordCount.finish, gfinish. rewrite Hcur, Hc, Hsz.
    destruct (truthy (snd gst)); [|reflexivity].
    now rewrite map_app.
  - apply IH; unfold WordCount.body, gstep, word_flush;
      fold (words u); rewrite Hcur, Hsz;
      destruct ((wsize (snd gst) + words u >? chunk_size) && truthy (snd gst));
      simpl; rewrite ?Hc, ?Hcur, ?Hsz, ?map_app, ?wsize_app; simpl;
      try reflexivity; lia.
Qed.

Lemma word_run_groups (joiner : str) (chunk_size : Z) (units : list str) :
  WordCount.run joiner chunk_size units
  = map (word_chunk joiner) (groups (word_flush chunk_size) units).
Proof. now apply word_fold_groups. Qed.

(** The chunks of tokens are their groups, decoded and counted. *)
Lemma token_fold_groups (encoder : Encoding) (chunk_size : Z)
      (tokens : list token) :
  forall (st : loop_state token) (gst : list (list token) * list token),
  chunks st = map (token_chunk encoder) (fst gst) ->
  current_chunk st = snd gst ->
  current_chunk_size st = len (snd gst) ->
  TokenBasedChunking.finish encoder
    (fold_left (TokenBasedChunking.body encoder chunk_size) tokens st)
  = map (token_chunk encoder)
        (gfinish (fold_left (gstep (token_flush chunk_size)) tokens gst)).
Proof.
  induction tokens as [|t tokens IH]; intros st gst Hc Hcur Hsz; simpl.
  - unfold TokenBasedChunking.finish, gfinish. rewrite Hcur, Hc.
    destruct (truthy (snd gst)); [|reflexivity].
    now rewrite map_app.
  - apply IH; unfold TokenBasedChunking.body, gstep, token_flush;
      rewrite Hsz; destruct (len (snd gst) >=? chunk_size);
      simpl; rewrite ?Hc, ?Hcur, ?Hsz, ?map_app, ?len_app_single; simpl;
      reflexivity.
Qed.

Lemma token_chunk_groups (encoder : Encoding) (text : str) (chunk_size : Z) :
  TokenBasedChunking.chunk encoder text chunk_size
  = map (token_chunk encoder)
        (groups (token_flush chunk_size) (encode encoder text)).
Proof. now apply token_fold_groups. Qed.

(** Closed groups are never reopened. *)
Lemma fold_gstep_prefix {U : Type} (flush : list U -> U -> bool)
      (units : list U) : forall st,
  exists more, gfinish (fold_left (gstep flush) units st) = fst st ++ more.
Proof.
  induction units as [|u units IH]; intros st; simpl.
  - unfold gfinish. destruct (truthy (snd st)); eauto.
    exists []. now rewrite app_nil_r.
  - destruct (IH (gstep flush st u)) as [more E]. rewrite E.
    unfold gstep. destruct (flush (snd st) u); simpl; eauto.
    rewrite <- app_assoc. eauto.
Qed.

(* ===================================================================== *)
(** ** Size of the chunks *)
(* ===================================================================== *)

Lemma word_groups_bounded (chunk_size : Z) (units : list str) :
  Forall (fun g => wsize g <= chunk_size \/ exists u, g = [u])
         (groups (word_flush chunk_size) units).
Proof.
  assert (close : forall cur : list str,
    wsize cur <= chunk_size \/ (length cur <= 1)%nat -> cur <> [] ->
    wsize cur <= chunk_size \/ exists u, cur = [u]).
  { intros cur [H|H] Hne; [now left|].
    destruct cur as [|u [|v cur]]; simpl in H; try congruence; try lia.
    right. now exists u. }
  apply groups_invariant
    with (J := fun cur => wsize cur <= chunk_size \/ (length cur <= 1)%nat).
  - right. simpl. lia.
  - intros cur u HJ H. unfold word_flush in H.
    apply andb_prop in H as [_ H]. apply truthy_true in H.
    split; [now apply close | right; simpl; lia].
  - intros cur u HJ H. unfold word_flush in H.
    apply andb_false_iff in H as [H|H].
    + left. rewrite wsize_app. simpl. lia.
    + destruct cur; [|discriminate]. right. simpl. lia.
  - exact close.
Qed.

(** Lines and paragraphs: a chunk is within the target unless it is one
    unit that is itself over the target. *)
Lemma word_run_bounded (joiner : str) (chunk_size : Z) (units : list str) :
  Forall (word_chunk_ok units chunk_size)
         (WordCount.run joiner chunk_size units).
Proof.
  rewrite word_run_groups. apply Forall_map.
  pose proof (word_groups_bounded chunk_size units) as HB.
  rewrite Forall_forall in *. intros g Hg.
  unfold word_chunk_ok, word_chunk. simpl.
  destruct (Z_le_gt_dec (wsize g) chunk_size) as [Hle|Hgt]; [now left|].
  right. destruct (HB g Hg) as [H|[u ->]]; [lia|].
  exists u. simpl in *. rewrite Z.add_0_r in *. repeat split; [|lia].
  rewrite <- (groups_concat (word_flush chunk_size) units).
  apply in_concat. exists [u]. split; [assumption | now left].
Qed.

(** X1: for every text and target, every chunk of line-based chunking is
    within the target, or is one line that by itself has more words than
    the target. *)
Lemma line_chunk_bounded (text : str) (chunk_size : Z) :
  Forall (word_chunk_ok (splitlines text) chunk_size)
         (LineBasedChunking.chunk text chunk_size).
Proof. apply word_run_bounded. Qed.

(** X2: for every text and target, every chunk of paragraph-based chunking
    is within the target, or is one paragraph that by itself has more words
    than the target. *)
Lemma paragraph_chunk_bounded (text : str) (chunk_size : Z) :
  exists paragraphs cs,
    split text [LF; LF] = Ok paragraphs
    /\ ParagraphBasedChunking.chunk text chunk_size = Ok cs
    /\ Forall (word_chunk_ok paragraphs chunk_size) cs.
Proof.
  do 2 eexists. split; [reflexivity|]. split; [reflexivity|].
  apply word_run_bounded.
Qed.

Lemma token_groups_bounded (chunk_size : Z) (tokens : list token) :
  0 <= chunk_size ->
  Forall (fun g => len g <= chunk_size \/ exists t, g = [t])
         (groups (token_flush chunk_size) tokens).
Proof.
  intros Hcs.
  assert (close : forall cur : list token,
    len cur <= chunk_size \/ (length cur <= 1)%nat ->
    len cur <= chunk_size \/ exists t, cur = [t]).
  { intros cur [H|H]; [now left|].
    destruct cur as [|t [|v cur]]; simpl in H; try lia.
    - now left.
    - right. now exists t. }
  apply groups_invariant
    with (J := fun cur => len cur <= chunk_size \/ (length cur <= 1)%nat).
  - left. exact Hcs.
  - intros cur t HJ _. split; [now apply close | right; simpl; lia].
  - intros cur t _ H. unfold token_flush in H.
    left. rewrite len_app_single. lia.
  - intros cur HJ _. now apply close.
Qed.

(** X3: for every target that is not negative, every chunk of token-based
    chunking is within the target, or (target 0) is one single token. *)
Lemma token_chunk_bounded (encoder : Encoding) (text : str) (chunk_size : Z) :
  0 <= chunk_size ->
  Forall (token_chunk_ok encoder (encode encoder text) chunk_size)
         (TokenBasedChunking.chunk encoder text chunk_size).
Proof.
  intros Hcs. rewrite token_chunk_groups. apply Forall_map.
  pose proof (token_groups_bounded chunk_size (encode encoder text) Hcs) as HB.
  rewrite Forall_forall in *. intros g Hg.
  unfold token_chunk_ok, token_chunk. simpl.
  destruct (Z_le_gt_dec (len g) chunk_size) as [Hle|Hgt]; [now left|].
  right. destruct (HB g Hg) as [H|[t ->]]; [lia|].
  exists t. unfold len in *. simpl in *. repeat split; [|lia].
  rewrite <- (groups_concat (token_flush chunk_size) (encode encoder text)).
  apply in_concat. exists [t]. split; [assumption | now left].
Qed.

(** C1 (size invariant of the three strategies), at the inputs where the
    code departs from it: with a negative target size and a text of at least
    one token, token-based chunking returns a list that does not satisfy the
    invariant.  Its first chunk holds no token at all and has size 0, which
    is over the target; it is neither within the target nor a single
    token. *)
Theorem token_negative_target_breaks_bound (encoder : Encoding) (text : str)
        (chunk_size : Z) :
  chunk_size < 0 ->
  encode encoder text <> [] ->
  hd_error (TokenBasedChunking.chunk encoder text chunk_size)
    = Some (decode encoder [], 0)
  /\ ~ Forall (token_chunk_ok encoder (encode encoder text) chunk_size)
              (TokenBasedChunking.chunk encoder text chunk_size).
Proof.
  intros Hneg Htok. rewrite token_chunk_groups.
  destruct (encode encoder text) as [|t tokens] eqn:E; [congruence|].
  unfold groups. simpl fold_left.
  assert (Hstep : gstep (token_flush chunk_size) ([], []) t = ([[]], [t])).
  { unfold gstep, token_flush. simpl.
    destruct (Z.geb_spec (len (@nil token)) chunk_size) as [_|H];
      [reflexivity | unfold len in H; simpl in H; lia]. }
  rewrite Hstep.
  destruct (fold_gstep_prefix (token_flush chunk_size) tokens ([[]], [t]))
    as [more ->].
  simpl. split; [reflexivity|].
  intros H. inversion_clear H as [|? ? Hhd _].
  destruct Hhd as [Hle | (tok & _ & Heq & _)].
  - simpl in Hle. unfold len in Hle. simpl in Hle. lia.
  - unfold token_chunk, len in Heq. simpl in Heq. congruence.
Qed.

Lemma token_negative_target_breaks_bound_witness :
  -1 < 0
  /\ encode codepoint_encoding (pystr "a") <> []
  /\ hd_error (TokenBasedChunking.chunk codepoint_encoding (pystr "a") (-1))
     = Some (decode codepoint_encoding [], 0)
  /\ ~ Forall (token_chunk_ok codepoint_encoding
                 (encode codepoint_encoding (pystr "a")) (-1))
              (TokenBasedChunking.chunk codepoint_encoding (pystr "a") (-1)).
Proof.
  assert (H1 : -1 < 0) by lia.
  assert (H2 : encode codepoint_encoding (pystr "a") <> []) by discriminate.
  split; [exact H1|]. split; [exact H2|].
  exact (token_negative_target_breaks_bound
           codepoint_encoding (pystr "a") (-1) H1 H2).
Defined.

(* ===================================================================== *)
(** ** The literal cases *)
(* ===================================================================== *)

(** C2, as the specification states it: line-based chunking of the example
    with target 3 does not return the two chunks ("a b c", 3) and
    ("d e f g h", 5). *)
Lemma line_example_not_two_chunks :
  LineBasedChunking.chunk line_example 3
  <> [(pystr "a b c", 3); (pystr "d e f g h", 5)].
Proof. vm_compute. discriminate. Qed.

(** C2, amended: the example has the three lines "a b c", "d" and
    "e f g h" of 3, 1 and 4 words, and line-based chunking with target 3
    returns exactly three chunks, one per line: ("a b c", 3), ("d", 1) and
    ("e f g h", 4), in that order. *)
Theorem line_example_three_chunks :
  splitlines line_example = [pystr "a b c"; pystr "d"; pystr "e f g h"]
  /\ map words (splitlines line_example) = [3; 1; 4]
  /\ LineBasedChunking.chunk line_example 3
     = [(pystr "a b c", 3); (pystr "d", 1); (pystr "e f g h", 4)].
Proof. repeat split; vm_compute; reflexivity. Qed.

(** C7: the example has three paragraphs of 2, 1 and 3 words, and
    paragraph-based chunking with target 2 returns exactly the three chunks
    ("alpha beta", 2), ("gamma", 1) and ("delta epsilon zeta", 3), in that
    order. *)
Theorem paragraph_example_three_chunks :
  (exists paragraphs, split paragraph_example [LF; LF] = Ok paragraphs
                      /\ map words paragraphs = [2; 1; 3])
  /\ ParagraphBasedChunking.chunk paragraph_example 2
     = Ok [(pystr "alpha beta", 2); (pystr "gamma", 1);
           (pystr "delta epsilon zeta", 3)].
Proof.
  split.
  - eexists. split; [reflexivity|]. vm_compute. reflexivity.
  - vm_compute. reflexivity.
Qed.

(** C3, on the code: with target 0, token-based chunking of a text of five
    tokens returns six chunks, not five: first a chunk of no token, of size
    0, then the five tokens, each one a chunk of size 1. *)
Theorem token_target_zero_five_tokens (encoder : Encoding) (text : str)
        (t1 t2 t3 t4 t5 : token) :
  encode encoder text = [t1; t2; t3; t4; t5] ->
  TokenBasedChunking.chunk encoder text 0
  = [(decode encoder [], 0);
     (decode encoder [t1], 1); (decode encoder [t2], 1);
     (decode encoder [t3], 1); (decode encoder [t4], 1);
     (decode encoder [t5], 1)].
Proof.
  intros E. unfold TokenBasedChunking.chunk. rewrite E. reflexivity.
Qed.

Lemma token_target_zero_five_tokens_witness :
  encode codepoint_encoding (pystr "hello")
  = [104; 101; 108; 108; 111]%N
  /\ TokenBasedChunking.chunk codepoint_encoding (pystr "hello") 0
     = [([], 0); (pystr "h", 1); (pystr "e", 1); (pystr "l", 1);
        (pystr "l", 1); (pystr "o", 1)].
Proof.
  assert (H : encode codepoint_encoding (pystr "hello")
              = [104; 101; 108; 108; 111]%N) by reflexivity.
  split; [exact H|].
  exact (token_target_zero_five_tokens
           codepoint_encoding (pystr "hello") _ _ _ _ _ H).
Defined.

(* ===================================================================== *)
(** ** Empty input, empty result *)
(* ===================================================================== *)

Lemma word_run_nil (joiner : str) (chunk_size : Z) (units : list str) :
  WordCount.run joiner chunk_size units = [] <-> units = [].
Proof.
  rewrite word_run_groups. rewrite <- (groups_nil (word_flush chunk_size)).
  split; [apply map_eq_nil | intros ->; reflexivity].
Qed.

(** X4: line-based chunking returns no chunk exactly for the empty
    text. *)
Lemma line_chunk_nil (text : str) (chunk_size : Z) :
  LineBasedChunking.chunk text chunk_size = [] <-> text = [].
Proof.
  unfold LineBasedChunking.chunk. rewrite word_run_nil. apply splitlines_nil.
Qed.

(** X5: token-based chunking returns no chunk exactly when the text has no
    token. *)
Lemma token_chunk_nil (encoder : Encoding) (text : str) (chunk_size : Z) :
  TokenBasedChunking.chunk encoder text chunk_size = []
  <-> encode encoder text = [].
Proof.
  rewrite token_chunk_groups.
  rewrite <- (groups_nil (token_flush chunk_size)).
  split; [apply map_eq_nil | intros ->; reflexivity].
Qed.

Lemma paragraph_chunk_run (text : str) (chunk_size : Z) :
  ParagraphBasedChunking.chunk text chunk_size
  = Ok (WordCount.run [LF; LF] chunk_size (split_from LF [LF] [] text)).
Proof. reflexivity. Qed.

(** X6: paragraph-based chunking returns at least one chunk for every
    text, the empty one included. *)
Lemma paragraph_chunk_not_nil (text : str) (chunk_size : Z) :
  ParagraphBasedChunking.chunk text chunk_size <> Ok [].
Proof.
  rewrite paragraph_chunk_run. intros H. injection H as H.
  apply word_run_nil in H. now apply split_from_nonempty in H.
Qed.

(** C4, at the input where the code departs from it: for every target
    size, paragraph-based chunking of the empty text returns one chunk, the
    empty text with size 0, and not the empty list. *)
Theorem paragraph_empty_text_one_chunk (chunk_size : Z) :
  ParagraphBasedChunking.chunk [] chunk_size = Ok [([], 0)].
Proof.
  rewrite paragraph_chunk_run.
  change (split_from LF [LF] [] []) with [@nil char].
  unfold WordCount.run, WordCount.finish, WordCount.body. simpl.
  rewrite andb_false_r. reflexivity.
Qed.

(* ===================================================================== *)
(** ** The factory *)
(* ===================================================================== *)

Lemma str_eqb_eq (a b : str) : str_eqb a b = true <-> a = b.
Proof.
  unfold str_eqb. destruct (list_eq_dec N.eq_dec a b); split; congruence.
Qed.

Lemma str_eqb_neq (a b : str) : str_eqb a b = false <-> a <> b.
Proof.
  unfold str_eqb. destruct (list_eq_dec N.eq_dec a b); split; congruence.
Qed.

(** C5, as the specification states it: for the unknown name "unknown" the
    factory fails, but the exception it raises is not of class
    ConfigurationError. *)
Lemma factory_unknown_not_ConfigurationError :
  factory_fails (pystr "unknown") None
  /\ ~ raises "ConfigurationError"
        (get_chunking_strategy (pystr "unknown") None).
Proof.
  split.
  - left. intros [H|[H|[H|[]]]]; discriminate H.
  - vm_compute. discriminate.
Qed.

(** C5, amended: the factory raises ValueError exactly when the name is
    none of "token", "line" and "paragraph", or when it is "token" and no
    encoder is given; "token" with an encoder, "line" and "paragraph"
    return the token-based, line-based and paragraph-based strategy. *)
Theorem factory_raises_ValueError (strategy_name : str)
        (encoder : option Encoding) (e : Encoding) :
  (raises "ValueError" (get_chunking_strategy strategy_name encoder)
   <-> factory_fails strategy_name encoder)
  /\ get_chunking_strategy (pystr "token") (Some e) = Ok (TokenBased e)
  /\ get_chunking_strategy (pystr "line") encoder = Ok LineBased
  /\ get_chunking_strategy (pystr "paragraph") encoder = Ok ParagraphBased.
Proof.
  split; [|repeat split].
  unfold get_chunking_strategy, factory_fails, strategy_names.
  destruct (str_eqb strategy_name (pystr "token")) eqn:Et.
  { apply str_eqb_eq in Et. subst strategy_name.
    destruct encoder as [enc|]; simpl.
    - split; [tauto|]. intros [H|[_ H]]; [|discriminate].
      apply H. now left.
    - split; [|reflexivity]. intros _. now right. }
  apply str_eqb_neq in Et.
  destruct (str_eqb strategy_name (pystr "line")) eqn:El.
  { apply str_eqb_eq in El. subst strategy_name. simpl.
    split; [tauto|]. intros [H|[H _]]; [|discriminate].
    apply H. right. now left. }
  apply str_eqb_neq in El.
  destruct (str_eqb strategy_name (pystr "paragraph")) eqn:Ep.
  { apply str_eqb_eq in Ep. subst strategy_name. simpl.
    split; [tauto|]. intros [H|[H _]]; [|discriminate].
    apply H. right. right. now left. }
  apply str_eqb_neq in Ep.
  split; [|reflexivity]. intros _. left.
  intros [H|[H|[H|[]]]]; congruence.
Qed.

(* ===================================================================== *)
(** ** Reconstruction of the input *)
(* ===================================================================== *)

(** C6: when encoding what was decoded gives back the tokens, the tokens of
    the chunks of a text, chunk after chunk in the order returned, are the
    tokens of the text, and each chunk reports the number of its tokens. *)
Theorem token_chunks_concat (encoder : Encoding) (text : str)
        (chunk_size : Z) :
  (forall l, encode encoder (decode encoder l) = l) ->
  concat (map (fun c => encode encoder (fst c))
              (TokenBasedChunking.chunk encoder text chunk_size))
  = encode encoder text
  /\ Forall (fun c => snd c = len (encode encoder (fst c)))
            (TokenBasedChunking.chunk encoder text chunk_size).
Proof.
  intros Hinv. rewrite token_chunk_groups. split.
  - rewrite map_map. unfold token_chunk. simpl.
    rewrite (map_ext _ (fun g => g)) by (intros g; apply Hinv).
    rewrite map_id. apply groups_concat.
  - apply Forall_map, Forall_forall. intros g _.
    unfold token_chunk. simpl. now rewrite Hinv.
Qed.

Lemma token_chunks_concat_witness :
  (forall l, encode codepoint_encoding (decode codepoint_encoding l) = l)
  /\ concat (map (fun c => encode codepoint_encoding (fst c))
                 (TokenBasedChunking.chunk codepoint_encoding
                                           (pystr "hello world") 4))
     = encode codepoint_encoding (pystr "hello world")
  /\ Forall (fun c => snd c = len (encode codepoint_encoding (fst c)))
            (TokenBasedChunking.chunk codepoint_encoding
                                      (pystr "hello world") 4).
Proof.
  assert (H : forall l,
             encode codepoint_encoding (decode codepoint_encoding l) = l)
    by (intros l; reflexivity).
  split; [exact H|].
  exact (token_chunks_concat codepoint_encoding (pystr "hello world") 4 H).
Defined.

Lemma word_run_join (joiner : str) (chunk_size : Z) (units : list str) :
  join joiner (map fst (WordCount.run joiner chunk_size units))
  = join joiner units.
Proof.
  rewrite word_run_groups, map_map. unfold word_chunk. simpl.
  change (fun x : list str => join joiner x) with (join joiner).
  rewrite join_concat by apply word_groups_nonempty.
  now rewrite groups_concat.
Qed.

(** C8: for every text and target size, paragraph-based chunking returns
    chunks whose texts joined by "\n\n" are the text itself, and the texts
    of the chunks of line-based chunking joined by " " are the lines of the
    text joined by " ". *)
Theorem chunk_texts_join (text : str) (chunk_size : Z) :
  (exists cs, ParagraphBasedChunking.chunk text chunk_size = Ok cs
              /\ join [LF; LF] (map fst cs) = text)
  /\ join [SPACE] (map fst (LineBasedChunking.chunk text chunk_size))
     = join [SPACE] (splitlines text).
Proof.
  split.
  - eexists. split; [apply paragraph_chunk_run|].
    rewrite word_run_join. apply (join_split_from LF [LF] [] text).
  - apply word_run_join.
Qed.

Lemma word_run_sizes (joiner : str) (chunk_size : Z) (units : list str) :
  joiner <> [] -> forallb is_space joiner = true ->
  Forall (fun c => snd c = words (fst c))
         (WordCount.run joiner chunk_size units).
Proof.
  intros Hne Hsp. rewrite word_run_groups.
  apply Forall_map, Forall_forall. intros g _.
  unfold word_chunk. simpl. now rewrite words_join.
Qed.

(** C9: for every text and target size, in line mode and in paragraph mode
    the size reported with a chunk is the number of whitespace-separated
    words of the text of that chunk. *)
Theorem chunk_size_is_word_count (text : str) (chunk_size : Z) :
  Forall (fun c => snd c = len (split_ws (fst c)))
         (LineBasedChunking.chunk text chunk_size)
  /\ exists cs, ParagraphBasedChunking.chunk text chunk_size = Ok cs
                /\ Forall (fun c => snd c = len (split_ws (fst c))) cs.
Proof.
  split.
  - apply word_run_sizes; [discriminate | reflexivity].
  - eexists. split; [apply paragraph_chunk_run|].
    apply word_run_sizes; [discriminate | reflexivity].
Qed.

(* ===================================================================== *)
(** ** Totality *)
(* ===================================================================== *)

Lemma skipn_nth_error {A : Type} (l : list A) : forall (i : nat) (x : A),
  nth_error l i = Some x -> skipn i l = x :: skipn (S i) l.
Proof.
  induction l as [|a l IH]; intros [|i] x H; simpl in *; try discriminate.
  - now injection H as ->.
  - now apply IH.
Qed.

(** With an integer target, a turn of the loop is the body of the loop. *)
Lemma step_int (joiner : str) (n : Z) (us : list str) (i : nat)
      (st : loop_state str) (u : str) :
  nth_error us i = Some u ->
  Exec.step joiner (PyInt n) (Exec.mk_frame us i st)
  = Exec.Continue (Exec.mk_frame us (S i) (WordCount.body joiner n st u)).
Proof.
  intros H. unfold Exec.step. simpl. rewrite H. reflexivity.
Qed.

(** With an integer target the loop leaves after one turn per unit still to
    come, and one more to find the iterator exhausted. *)
Lemma run_int (joiner : str) (n : Z) (us : list str) (extra : nat) :
  forall (k i : nat) (st : loop_state str),
  (i + k = length us)%nat ->
  Exec.run joiner (PyInt n) (S k + extra) (Exec.mk_frame us i st)
  = Some (Ok (fold_left (WordCount.body joiner n) (skipn i us) st)).
Proof.
  induction k as [|k IH]; intros i st Hk.
  - assert (E : nth_error us i = None) by (apply nth_error_None; lia).
    simpl. unfold Exec.step. simpl. rewrite E.
    rewrite skipn_all2 by lia. reflexivity.
  - destruct (nth_error us i) as [u|] eqn:E;
      [|apply nth_error_None in E; lia].
    change (S (S k) + extra)%nat with (S (S k + extra)).
    cbn [Exec.run]. rewrite (step_int joiner n us i st u E).
    rewrite IH by lia. now rewrite (skipn_nth_error us i u E).
Qed.

Lemma call_int (joiner : str) (n : Z) (us : list str) (extra : nat) :
  Exec.call joiner (PyInt n) (S (length us) + extra) (Ok us)
  = Some (Ok (WordCount.run joiner n us)).
Proof.
  unfold Exec.call. rewrite (run_int joiner n us extra (length us) 0)
    by reflexivity.
  reflexivity.
Qed.

(** The runs can fail: a budget smaller than the number of units cuts the
    loop off, a target that is not an integer raises [TypeError] at the
    first unit, and a text that is not a string raises
    [AttributeError]. *)
Lemma run_out_of_fuel (joiner : str) (n : Z) (us : list str) :
  forall (fuel i : nat) (st : loop_state str),
  (i + fuel <= length us)%nat ->
  Exec.run joiner (PyInt n) fuel (Exec.mk_frame us i st) = None.
Proof.
  induction fuel as [|fuel IH]; intros i st H; [reflexivity|].
  destruct (nth_error us i) as [u|] eqn:E;
    [|apply nth_error_None in E; lia].
  cbn [Exec.run]. rewrite (step_int joiner n us i st u E).
  apply IH. lia.
Qed.

Lemma line_chunk_target_not_int (fuel : nat) (text : str) (target : pyval) :
  text <> [] ->
  (forall n, target <> PyInt n) ->
  exists e, Exec.line_chunk (S fuel) (PyStr text) target = Some (Raise e)
            /\ exn_class e = "TypeError"%string.
Proof.
  intros Hne Hnot. unfold Exec.line_chunk, Exec.call. simpl py_splitlines.
  destruct (splitlines text) as [|u us] eqn:E;
    [apply splitlines_nil in E; congruence|].
  cbn [Exec.run]. unfold Exec.step. simpl.
  destruct target as [|n|s]; simpl.
  - eexists. split; reflexivity.
  - now destruct (Hnot n).
  - eexists. split; reflexivity.
Qed.

Lemma line_chunk_text_not_str (fuel : nat) (text target : pyval) :
  (forall s, text <> PyStr s) ->
  exists e, Exec.line_chunk fuel text target = Some (Raise e)
            /\ exn_class e = "AttributeError"%string.
Proof.
  intros Hnot. destruct text as [|n|s].
  - eexists. split; reflexivity.
  - eexists. split; reflexivity.
  - now destruct (Hnot s).
Qed.

(** C10: run step by step on a string and an integer target, negative and
    zero included, the line-based and the paragraph-based [chunk] both
    come to their [return] and raise nothing: the loop leaves after one
    turn per line (paragraph) and one more, so any budget above the number
    of units is enough, and the list returned is the one the method
    computes. *)
Theorem line_paragraph_chunk_returns (text : str) (chunk_size : Z)
        (extra : nat) :
  Exec.line_chunk (S (length (splitlines text)) + extra)
                  (PyStr text) (PyInt chunk_size)
  = Some (Ok (LineBasedChunking.chunk text chunk_size))
  /\ exists paragraphs cs,
       split text [LF; LF] = Ok paragraphs
       /\ ParagraphBasedChunking.chunk text chunk_size = Ok cs
       /\ Exec.paragraph_chunk (S (length paragraphs) + extra)
                               (PyStr text) (PyInt chunk_size)
          = Some (Ok cs).
Proof.
  split.
  - unfold Exec.line_chunk. simpl py_splitlines. apply call_int.
  - exists (split_from LF [LF] [] text). eexists.
    split; [reflexivity|]. split; [apply paragraph_chunk_run|].
    unfold Exec.paragraph_chunk. simpl py_split.
    change (split text [LF; LF]) with (Ok (split_from LF [LF] [] text)).
    apply call_int.
Qed.

(* ===================================================================== *)
(** ** More on the groups *)
(* ===================================================================== *)

Lemma len_nonneg {A : Type} (l : list A) : 0 <= len l.
Proof. unfold len. lia. Qed.

Lemma words_nonneg (u : str) : 0 <= words u.
Proof. apply len_nonneg. Qed.

Lemma wsize_nonneg (g : list str) : 0 <= wsize g.
Proof.
  induction g as [|u g IH]; simpl; [lia|].
  pose proof (words_nonneg u). lia.
Qed.

Lemma total_app (a b : list Z) : total (a ++ b) = total a + total b.
Proof. induction a as [|x a IH]; simpl; [reflexivity | rewrite IH; lia]. Qed.

Lemma total_len_concat {A : Type} (gs : list (list A)) :
  total (map len gs) = len (concat gs).
Proof.
  induction gs as [|g gs IH]; [reflexivity|].
  simpl. rewrite IH. unfold len. rewrite length_app. lia.
Qed.

Lemma total_wsize_concat (gs : list (list str)) :
  total (map wsize gs) = wsize (concat gs).
Proof.
  induction gs as [|g gs IH]; [reflexivity|].
  simpl. now rewrite IH, wsize_app.
Qed.

Lemma length_concat_nonempty {A : Type} (gs : list (list A)) :
  Forall (fun g => g <> []) gs -> (length gs <= length (concat gs))%nat.
Proof.
  induction 1 as [|g gs Hg _ IH]; simpl; [lia|].
  rewrite length_app. destruct g; [congruence | simpl; lia].
Qed.

Section SingletonGroups.
Context {U : Type}.
Variable flush : list U -> U -> bool.
Hypothesis flush_single : forall x u, flush [x] u = true.

(** When a group of one unit is always closed, every unit is a group. *)
Lemma fold_gstep_singletons (units : list U) : forall done x,
  gfinish (fold_left (gstep flush) units (done, [x]))
  = done ++ map (fun u => [u]) (x :: units).
Proof.
  induction units as [|u units IH]; intros done x; simpl.
  - reflexivity.
  - unfold gstep at 2. simpl. rewrite flush_single, IH.
    simpl. now rewrite <- app_assoc.
Qed.
End SingletonGroups.

Section InvariantOfState.
Context {U : Type}.
Variable flush : list U -> U -> bool.
Variable Inv : list (list U) * list U -> Prop.
Hypothesis Inv_step : forall st u, Inv st -> Inv (gstep flush st u).

Lemma fold_gstep_state (units : list U) : forall st,
  Inv st -> Inv (fold_left (gstep flush) units st).
Proof.
  induction units as [|u units IH]; intros st H; simpl; auto.
Qed.
End InvariantOfState.

(** *** Neighbours *)

Lemma chain_snoc {A : Type} (R : A -> A -> Prop) (l : list A) (a b : A) :
  chain R (l ++ [a]) -> R a b -> chain R ((l ++ [a]) ++ [b]).
Proof.
  induction l as [|x l IH]; intros H Hab; simpl.
  - auto.
  - destruct l as [|y l]; simpl in *.
    + tauto.
    + destruct H as [Hxy H]. split; [assumption|]. now apply IH.
Qed.

Lemma chain_last {A : Type} (R : A -> A -> Prop) (l : list A) (a a' : A) :
  (forall x, R x a -> R x a') ->
  chain R (l ++ [a]) -> chain R (l ++ [a']).
Proof.
  intros Hr. induction l as [|x l IH]; intros H; simpl; [exact I|].
  destruct l as [|y l]; simpl in *.
  - destruct H as [H _]. auto.
  - destruct H as [Hxy H]. split; [assumption|]. now apply IH.
Qed.

(** Lines and paragraphs: a group is closed only when the next unit does
    not fit. *)
Lemma word_groups_chain (chunk_size : Z) (units : list str) :
  chain (closed_when_full chunk_size) (groups (word_flush chunk_size) units).
Proof.
  set (Inv := fun st : list (list str) * list str =>
    (snd st = [] /\ fst st = [])
    \/ (snd st <> [] /\ chain (closed_when_full chunk_size) (fst st ++ [snd st]))).
  assert (H : Inv (fold_left (gstep (word_flush chunk_size)) units ([], []))).
  { apply fold_gstep_state; [|left; auto].
    intros [done cur] u [[Hc Hd]|[Hc Hch]]; simpl in *; unfold gstep; simpl.
    - subst. unfold word_flush. rewrite andb_false_r. simpl.
      right. split; [discriminate | exact I].
    - destruct (word_flush chunk_size cur u) eqn:E; simpl; right.
      + split; [discriminate|]. apply chain_snoc; [assumption|].
        unfold word_flush in E. apply andb_prop in E as [E _].
        exists u, []. split; [reflexivity | lia].
      + split; [destruct cur; discriminate|].
        apply chain_last with (a := cur); [|assumption].
        intros x (v & rest & -> & Hv). exists v, (rest ++ [u]). auto. }
  unfold groups, gfinish.
  destruct H as [[Hc Hd]|[Hc Hch]].
  - rewrite Hc, Hd. exact I.
  - apply truthy_true in Hc. now rewrite Hc.
Qed.

(** Lines and paragraphs: when all the words fit, nothing is closed. *)
Lemma word_groups_fit (chunk_size : Z) (units : list str) : forall cur,
  wsize cur + wsize units <= chunk_size ->
  fold_left (gstep (word_flush chunk_size)) units ([], cur)
  = ([], cur ++ units).
Proof.
  induction units as [|u units IH]; intros cur H; simpl.
  - now rewrite app_nil_r.
  - simpl in H. pose proof (wsize_nonneg units).
    unfold gstep at 2, word_flush. simpl.
    destruct (Z.gtb_spec (wsize cur + words u) chunk_size) as [Hgt|_];
      [lia|].
    simpl. rewrite IH by (rewrite wsize_app; simpl; lia).
    now rewrite <- app_assoc.
Qed.

(** Lines and paragraphs: below zero, every unit is closed at once. *)
Lemma word_groups_negative (chunk_size : Z) (units : list str) :
  chunk_size < 0 ->
  groups (word_flush chunk_size) units = map (fun u => [u]) units.
Proof.
  intros Hneg. destruct units as [|x units]; [reflexivity|].
  unfold groups. simpl fold_left. unfold gstep at 2, word_flush at 2.
  rewrite andb_false_r. simpl.
  rewrite fold_gstep_singletons; [reflexivity|].
  intros y u. unfold word_flush. simpl.
  pose proof (words_nonneg y). pose proof (words_nonneg u).
  destruct (Z.gtb_spec (words y + 0 + words u) chunk_size); [reflexivity | lia].
Qed.

(** Tokens: at zero and below, an empty group first, then every token. *)
Lemma token_groups_nonpositive (chunk_size : Z) (t : token)
      (tokens : list token) :
  chunk_size <= 0 ->
  groups (token_flush chunk_size) (t :: tokens)
  = [] :: map (fun u => [u]) (t :: tokens).
Proof.
  intros Hcs. unfold groups. simpl fold_left.
  unfold gstep at 2, token_flush at 2. simpl.
  destruct (Z.geb_spec (len (@nil token)) chunk_size) as [_|H];
    [|unfold len in H; simpl in H; lia].
  simpl. rewrite fold_gstep_singletons; [reflexivity|].
  intros y u. unfold token_flush, len. simpl.
  destruct (Z.geb_spec 1 chunk_size); [reflexivity | lia].
Qed.

(** *** Lines and words *)

(** Every line break is whitespace. *)
Lemma linebreak_is_space (c : char) :
  is_linebreak c = true -> is_space c = true.
Proof.
  unfold is_linebreak. intros H. destruct c as [|p]; [discriminate|].
  repeat match type of H with
         | match ?q with _ => _ end = true =>
             destruct q; try discriminate H
         end;
    reflexivity.
Qed.

Lemma wsize_cons (u : str) (g : list str) :
  wsize (u :: g) = words u + wsize g.
Proof. reflexivity. Qed.

Lemma split_ws_break (a : str) (w : char) (b : str) :
  is_space w = true -> split_ws (a ++ w :: b) = split_ws a ++ split_ws b.
Proof. intros H. unfold split_ws. now apply split_ws_from_break. Qed.

Lemma wsize_splitlines_from (n : nat) : forall (s cur : str),
  (length s <= n)%nat ->
  wsize (splitlines_from cur s) = words (rev cur ++ s).
Proof.
  induction n as [|n IH]; intros s cur Hn.
  - destruct s; [|simpl in Hn; lia].
    rewrite app_nil_r. destruct cur as [|c cur]; [reflexivity|].
    cbn [splitlines_from wsize fold_right]. apply Z.add_0_r.
  - destruct s as [|c s].
    { rewrite app_nil_r. destruct cur as [|c cur]; [reflexivity|].
      cbn [splitlines_from wsize fold_right]. apply Z.add_0_r. }
    simpl in Hn. simpl splitlines_from.
    destruct (is_linebreak c) eqn:Ec.
    + apply linebreak_is_space in Ec.
      assert (Hw : words (rev cur ++ c :: s) = words (rev cur) + words s).
      { unfold words. rewrite split_ws_break by assumption.
        unfold len. rewrite length_app. lia. }
      destruct s as [|c' s'].
      * rewrite Hw. reflexivity.
      * destruct ((c =? CR)%N && (c' =? LF)%N) eqn:Ecr.
        -- rewrite wsize_cons, (IH s' []) by (simpl in Hn; lia).
           rewrite Hw. simpl rev. simpl app.
           apply andb_prop in Ecr as [_ Elf]. apply N.eqb_eq in Elf. subst c'.
           assert (Hs : words (LF :: s') = words s').
           { unfold words. now rewrite (split_ws_break [] LF s' eq_refl : split_ws (LF :: s') = _). }
           rewrite Hs. reflexivity.
        -- rewrite wsize_cons, (IH (c' :: s') []) by lia.
           rewrite Hw. reflexivity.
    + rewrite (IH s (c :: cur)) by lia.
      simpl rev. now rewrite <- app_assoc.
Qed.

(** The words of a text are the words of its lines. *)
Lemma wsize_splitlines (text : str) : wsize (splitlines text) = words text.
Proof. apply (wsize_splitlines_from (length text)). lia. Qed.

(** The words of a text are the words of its paragraphs. *)
Lemma wsize_paragraphs (text : str) :
  wsize (split_from LF [LF] [] text) = words text.
Proof.
  rewrite <- (words_join [LF; LF]) by (discriminate || reflexivity).
  now rewrite join_split_from.
Qed.

(* ===================================================================== *)
(** ** [chunk_iterable] *)
(* ===================================================================== *)

Section ChunkIterable.
Context {A : Type}.
Variable chunk_size : Z.

Lemma chunk_iterable_fold_concat (items : list A) : forall st,
  concat (fst (fold_left (chunk_iterable_body chunk_size) items st))
  ++ snd (fold_left (chunk_iterable_body chunk_size) items st)
  = (concat (fst st) ++ snd st) ++ items.
Proof.
  induction items as [|x items IH]; intros st; simpl.
  - now rewrite app_nil_r.
  - rewrite IH. unfold chunk_iterable_body.
    destruct (len (snd st ++ [x]) =? chunk_size); simpl.
    + rewrite concat_app. simpl. now rewrite !app_nil_r, <- !app_assoc.
    + now rewrite <- !app_assoc.
Qed.

Lemma chunk_iterable_fold_invariant (P : list A -> Prop) (J : list A -> Prop)
      (items : list A) :
  (forall cur x, J cur -> len (cur ++ [x]) = chunk_size -> P (cur ++ [x])) ->
  (forall cur x, J cur -> len (cur ++ [x]) <> chunk_size -> J (cur ++ [x])) ->
  J [] ->
  forall st, Forall P (fst st) -> J (snd st) ->
  Forall P (fst (fold_left (chunk_iterable_body chunk_size) items st))
  /\ J (snd (fold_left (chunk_iterable_body chunk_size) items st)).
Proof.
  intros Hy Hk H0. induction items as [|x items IH]; intros st HP HJ; simpl.
  - auto.
  - apply IH; unfold chunk_iterable_body;
      destruct (Z.eqb_spec (len (snd st ++ [x])) chunk_size); simpl; auto.
    apply Forall_app. split; auto.
Qed.
End ChunkIterable.

Lemma chunk_iterable_result {A : Type} (items : list A) (chunk_size : Z) :
  chunk_iterable items chunk_size
  = fst (fold_left (chunk_iterable_body chunk_size) items ([], []))
    ++ (if truthy (snd (fold_left (chunk_iterable_body chunk_size) items
                                  ([], [])))
        then [snd (fold_left (chunk_iterable_body chunk_size) items ([], []))]
        else []).
Proof.
  unfold chunk_iterable.
  destruct (truthy (snd (fold_left _ items ([], [])))); simpl;
    [reflexivity | now rewrite app_nil_r].
Qed.

(** Token groups and [chunk_iterable] for a target of at least one: the
    first closes a full group when the next token comes, the second as soon
    as the group is full. *)
Lemma token_groups_simulation (chunk_size : Z) (tokens : list token) :
  1 <= chunk_size ->
  forall (gst cst : list (list token) * list token),
  (fst cst = fst gst /\ snd cst = snd gst /\ len (snd gst) < chunk_size)
  \/ (fst cst = fst gst ++ [snd gst] /\ snd cst = []
      /\ len (snd gst) = chunk_size) ->
  gfinish (fold_left (gstep (token_flush chunk_size)) tokens gst)
  = (let st := fold_left (chunk_iterable_body chunk_size) tokens cst in
     if truthy (snd st) then fst st ++ [snd st] else fst st).
Proof.
  intros Hcs. induction tokens as [|t tokens IH]; intros gst cst H.
  - simpl. unfold gfinish.
    destruct H as [(Hf & Hs & _)|(Hf & Hs & Hl)].
    + now rewrite Hf, Hs.
    + rewrite Hf, Hs. simpl.
      destruct (snd gst); [unfold len in Hl; simpl in Hl; lia | reflexivity].
  - simpl. apply IH.
    unfold gstep, token_flush, chunk_iterable_body.
    destruct H as [(Hf & Hs & Hl)|(Hf & Hs & Hl)]; rewrite Hf, Hs.
    + destruct (Z.geb_spec (len (snd gst)) chunk_size) as [|_]; [lia|].
      rewrite len_app_single.
      destruct (Z.eqb_spec (len (snd gst) + 1) chunk_size); simpl.
      * right. rewrite len_app_single. auto.
      * left. rewrite len_app_single. repeat split; lia.
    + destruct (Z.geb_spec (len (snd gst)) chunk_size) as [_|]; [|lia].
      simpl app.
      destruct (Z.eqb_spec (len [t]) chunk_size) as [E|E]; simpl.
      * right. auto.
      * left. unfold len in *. simpl in *. repeat split; lia.
Qed.

Lemma token_groups_chunk_iterable (chunk_size : Z) (tokens : list token) :
  1 <= chunk_size ->
  groups (token_flush chunk_size) tokens = chunk_iterable tokens chunk_size.
Proof.
  intros Hcs. unfold groups, chunk_iterable.
  apply token_groups_simulation; [assumption|].
  left. unfold len. simpl. repeat split; lia.
Qed.

(** For a size of at least one, what [chunk_iterable] yields is full
    chunks, then at most one shorter chunk. *)
Lemma chunk_iterable_shape {A : Type} (items : list A) (chunk_size : Z) :
  1 <= chunk_size ->
  exists full rest,
    chunk_iterable items chunk_size = full ++ rest
    /\ Forall (fun c => len c = chunk_size) full
    /\ (rest = [] \/ exists r, rest = [r] /\ 0 < len r < chunk_size).
Proof.
  intros Hcs. rewrite chunk_iterable_result.
  destruct (chunk_iterable_fold_invariant chunk_size
              (fun c => len c = chunk_size)
              (fun cur => len cur < chunk_size) items) with (st := (@nil (list A), @nil A))
    as [HP HJ]; simpl; auto.
  - intros cur x H1 H2. pose proof (len_app_single cur x).
    pose proof (len_nonneg cur). lia.
  - unfold len. simpl. lia.
  - unfold len. simpl. lia.
  - do 2 eexists. split; [reflexivity|]. split; [exact HP|].
    destruct (snd (fold_left _ items ([], []))) as [|x cur] eqn:E; simpl;
      [now left|].
    right. eexists. split; [reflexivity|].
    split; [unfold len; simpl; lia | exact HJ].
Qed.

(* ===================================================================== *)
(** ** The XML writers *)
(* ===================================================================== *)

Lemma flat_map_flat_map {A B C : Type} (f : B -> list C) (g : A -> list B)
      (l : list A) :
  flat_map f (flat_map g l) = flat_map (fun x => flat_map f (g x)) l.
Proof.
  induction l as [|x l IH]; simpl; [reflexivity|].
  now rewrite flat_map_app, IH.
Qed.

(** The three replacements amount to one pass over the characters. *)
Lemma xml_escape_chars (data : str) :
  xml_escape data = flat_map escape_char data.
Proof.
  unfold xml_escape, replace_char. rewrite !flat_map_flat_map.
  apply flat_map_ext. intros c. unfold escape_char.
  destruct (N.eqb_spec c AMP) as [->|Ha]; [reflexivity|].
  simpl. rewrite app_nil_r.
  destruct (N.eqb_spec c GT) as [->|Hg]; [reflexivity|].
  simpl. rewrite app_nil_r.
  destruct (N.eqb_spec c LT) as [->|Hl]; reflexivity.
Qed.

Lemma escape_char_cases (c : char) :
  (c = AMP /\ escape_char c = pystr "&amp;")
  \/ (c = GT /\ escape_char c = pystr "&gt;")
  \/ (c = LT /\ escape_char c = pystr "&lt;")
  \/ (c <> AMP /\ c <> GT /\ c <> LT /\ escape_char c = [c]).
Proof.
  unfold escape_char.
  destruct (N.eqb_spec c AMP) as [->|Ha]; [now left|].
  destruct (N.eqb_spec c GT) as [->|Hg]; [right; now left|].
  destruct (N.eqb_spec c LT) as [->|Hl]; [right; right; now left|].
  right. right. right. auto.
Qed.

Lemma escape_char_no_markup (c : char) :
  Forall (fun x => x <> LT /\ x <> GT) (escape_char c).
Proof.
  destruct (escape_char_cases c)
    as [[_ ->]|[[_ ->]|[[_ ->]|(_ & Hg & Hl & ->)]]];
    repeat constructor; try assumption; discriminate.
Qed.

Lemma xml_escape_no_markup (data : str) :
  Forall (fun x => x <> LT /\ x <> GT) (xml_escape data).
Proof.
  rewrite xml_escape_chars. apply Forall_flat_map, Forall_forall.
  intros c _. apply escape_char_no_markup.
Qed.

Lemma length_xml_escape (data : str) :
  (length data <= length (xml_escape data))%nat.
Proof.
  rewrite xml_escape_chars.
  induction data as [|c data IH]; simpl; [lia|].
  rewrite length_app.
  destruct (escape_char_cases c)
    as [[_ ->]|[[_ ->]|[[_ ->]|(_ & _ & _ & ->)]]]; simpl; lia.
Qed.

Lemma flat_map_escape_char_inj (a : str) : forall b,
  flat_map escape_char a = flat_map escape_char b -> a = b.
Proof.
  induction a as [|x a IH]; intros [|y b] H; simpl in H.
  - reflexivity.
  - destruct (escape_char_cases y)
      as [[_ E]|[[_ E]|[[_ E]|(_ & _ & _ & E)]]];
      rewrite E in H; discriminate H.
  - destruct (escape_char_cases x)
      as [[_ E]|[[_ E]|[[_ E]|(_ & _ & _ & E)]]];
      rewrite E in H; discriminate H.
  - destruct (escape_char_cases x)
      as [[Hx Ex]|[[Hx Ex]|[[Hx Ex]|(Hx1 & Hx2 & Hx3 & Ex)]]];
    destruct (escape_char_cases y)
      as [[Hy Ey]|[[Hy Ey]|[[Hy Ey]|(Hy1 & Hy2 & Hy3 & Ey)]]];
    rewrite Ex, Ey in H; simpl in H; unfold AMP, GT, LT in *;
    try discriminate H;
    try (injection H as H; subst; f_equal; now apply IH);
    try (injection H as H1 H; subst; congruence);
    injection H as H1 H; subst; f_equal; now apply IH.
Qed.











(* ===================================================================== *)
(** ** Further properties of the strategies *)
(* ===================================================================== *)

Lemma token_chunk_bounded_witness :
  0 <= 2
  /\ Forall (token_chunk_ok codepoint_encoding
               (encode codepoint_encoding (pystr "hello")) 2)
            (TokenBasedChunking.chunk codepoint_encoding (pystr "hello") 2).
Proof.
  assert (H : 0 <= 2) by lia.
  split; [exact H|].
  exact (token_chunk_bounded codepoint_encoding (pystr "hello") 2 H).
Defined.

(** X7: with a target of at least one, token-based chunking returns chunks
    of exactly [chunk_size] tokens, followed by at most one last chunk that
    is shorter and not empty. *)
Theorem token_positive_target_blocks (encoder : Encoding) (text : str)
        (chunk_size : Z) :
  1 <= chunk_size ->
  exists full rest,
    TokenBasedChunking.chunk encoder text chunk_size = full ++ rest
    /\ Forall (fun c => snd c = chunk_size) full
    /\ (rest = [] \/ exists c, rest = [c] /\ 0 < snd c < chunk_size).
Proof.
  intros Hcs. rewrite token_chunk_groups, token_groups_chunk_iterable by lia.
  destruct (chunk_iterable_shape (encode encoder text) chunk_size Hcs)
    as (full & rest & -> & Hfull & Hrest).
  exists (map (token_chunk encoder) full), (map (token_chunk encoder) rest).
  split; [apply map_app|]. split.
  - apply Forall_map. exact Hfull.
  - destruct Hrest as [->|(r & -> & Hr)]; [now left|].
    right. eexists. split; [reflexivity | exact Hr].
Qed.

Lemma token_positive_target_blocks_witness :
  1 <= 2
  /\ exists full rest,
       TokenBasedChunking.chunk codepoint_encoding (pystr "hello") 2
       = full ++ rest
       /\ Forall (fun c => snd c = 2) full
       /\ (rest = [] \/ exists c, rest = [c] /\ 0 < snd c < 2).
Proof.
  assert (H : 1 <= 2) by lia.
  split; [exact H|].
  exact (token_positive_target_blocks codepoint_encoding (pystr "hello") 2 H).
Defined.

(** X8: with a target of zero or less and a text of at least one token,
    token-based chunking returns a first chunk of no token, with size 0,
    and then one chunk of size 1 for every token, in order. *)
Theorem token_nonpositive_target (encoder : Encoding) (text : str)
        (chunk_size : Z) :
  chunk_size <= 0 ->
  encode encoder text <> [] ->
  TokenBasedChunking.chunk encoder text chunk_size
  = (decode encoder [], 0)
    :: map (fun t => (decode encoder [t], 1)) (encode encoder text).
Proof.
  intros Hcs Hne. rewrite token_chunk_groups.
  destruct (encode encoder text) as [|t tokens]; [congruence|].
  rewrite token_groups_nonpositive by assumption.
  cbn [map]. f_equal. now rewrite map_map.
Qed.

Lemma token_nonpositive_target_witness :
  -3 <= 0
  /\ encode codepoint_encoding (pystr "ab") <> []
  /\ TokenBasedChunking.chunk codepoint_encoding (pystr "ab") (-3)
     = (decode codepoint_encoding [], 0)
       :: map (fun t => (decode codepoint_encoding [t], 1))
              (encode codepoint_encoding (pystr "ab")).
Proof.
  assert (H1 : -3 <= 0) by lia.
  assert (H2 : encode codepoint_encoding (pystr "ab") <> []) by discriminate.
  split; [exact H1|]. split; [exact H2|].
  exact (token_nonpositive_target codepoint_encoding (pystr "ab") (-3) H1 H2).
Defined.

(** X9: for every target, the sizes of the chunks of token-based chunking
    add up to the number of tokens of the text. *)
Theorem token_sizes_total (encoder : Encoding) (text : str) (chunk_size : Z) :
  total (map snd (TokenBasedChunking.chunk encoder text chunk_size))
  = len (encode encoder text).
Proof.
  rewrite token_chunk_groups, map_map. unfold token_chunk. simpl.
  change (fun x : list token => len x) with (@len token).
  now rewrite total_len_concat, groups_concat.
Qed.

Lemma word_run_total (joiner : str) (chunk_size : Z) (units : list str) :
  total (map snd (WordCount.run joiner chunk_size units)) = wsize units.
Proof.
  rewrite word_run_groups, map_map. unfold word_chunk. simpl.
  change (fun x : list str => wsize x) with wsize.
  now rewrite total_wsize_concat, groups_concat.
Qed.

(** X10: for every target, the sizes of the chunks of line-based chunking
    add up to the number of words of the whole text, and so do those of
    paragraph-based chunking. *)
Theorem word_sizes_total (text : str) (chunk_size : Z) :
  total (map snd (LineBasedChunking.chunk text chunk_size))
  = len (split_ws text)
  /\ exists cs, ParagraphBasedChunking.chunk text chunk_size = Ok cs
                /\ total (map snd cs) = len (split_ws text).
Proof.
  split.
  - unfold LineBasedChunking.chunk. rewrite word_run_total.
    apply wsize_splitlines.
  - eexists. split; [apply paragraph_chunk_run|].
    rewrite word_run_total. apply wsize_paragraphs.
Qed.

Lemma word_run_greedy (joiner : str) (chunk_size : Z) (units : list str) :
  exists gs,
    WordCount.run joiner chunk_size units = map (word_chunk joiner) gs
    /\ concat gs = units
    /\ Forall (fun g => g <> []) gs
    /\ chain (closed_when_full chunk_size) gs.
Proof.
  exists (groups (word_flush chunk_size) units).
  split; [apply word_run_groups|]. split; [apply groups_concat|].
  split; [apply word_groups_nonempty | apply word_groups_chain].
Qed.

(** X11: line-based and paragraph-based chunking cut greedily.  The chunks
    are the joined texts and word counts of consecutive, non-empty groups
    of the lines (paragraphs), and wherever a group ends and another
    begins, the words of the first plus those of the first unit of the
    second exceed the target. *)
Theorem word_chunks_greedy (text : str) (chunk_size : Z) :
  (exists gs,
     LineBasedChunking.chunk text chunk_size = map (word_chunk [SPACE]) gs
     /\ concat gs = splitlines text
     /\ Forall (fun g => g <> []) gs
     /\ chain (closed_when_full chunk_size) gs)
  /\ (exists paragraphs gs,
        split text [LF; LF] = Ok paragraphs
        /\ ParagraphBasedChunking.chunk text chunk_size
           = Ok (map (word_chunk [LF; LF]) gs)
        /\ concat gs = paragraphs
        /\ Forall (fun g => g <> []) gs
        /\ chain (closed_when_full chunk_size) gs).
Proof.
  split.
  - apply word_run_greedy.
  - destruct (word_run_greedy [LF; LF] chunk_size (split_from LF [LF] [] text))
      as (gs & E & H).
    exists (split_from LF [LF] [] text), gs.
    split; [reflexivity|]. split; [|exact H].
    rewrite paragraph_chunk_run. now rewrite E.
Qed.

Lemma word_run_fit (joiner : str) (chunk_size : Z) (units : list str) :
  units <> [] -> wsize units <= chunk_size ->
  WordCount.run joiner chunk_size units = [(join joiner units, wsize units)].
Proof.
  intros Hne Hfit. rewrite word_run_groups. unfold groups.
  rewrite (word_groups_fit chunk_size units []) by (simpl; lia).
  unfold gfinish. simpl. apply truthy_true in Hne. now rewrite Hne.
Qed.

(** X12: when the whole text has at most [chunk_size] words,
    paragraph-based chunking returns the text itself, unchanged, as the
    only chunk, with its number of words as size. *)
Theorem paragraph_fits_single_chunk (text : str) (chunk_size : Z) :
  len (split_ws text) <= chunk_size ->
  ParagraphBasedChunking.chunk text chunk_size
  = Ok [(text, len (split_ws text))].
Proof.
  intros Hfit. rewrite paragraph_chunk_run.
  rewrite word_run_fit.
  - rewrite wsize_paragraphs. f_equal. f_equal. f_equal.
    apply (join_split_from LF [LF] [] text).
  - apply split_from_nonempty.
  - now rewrite wsize_paragraphs.
Qed.

Lemma paragraph_fits_single_chunk_witness :
  len (split_ws paragraph_example) <= 6
  /\ ParagraphBasedChunking.chunk paragraph_example 6
     = Ok [(paragraph_example, len (split_ws paragraph_example))].
Proof.
  assert (H : len (split_ws paragraph_example) <= 6)
    by (vm_compute; discriminate).
  split; [exact H|].
  exact (paragraph_fits_single_chunk paragraph_example 6 H).
Defined.

(** X13: when a non-empty text has at most [chunk_size] words, line-based
    chunking returns one chunk: all the lines joined by single spaces, with
    the number of words of the text as size. *)
Theorem line_fits_single_chunk (text : str) (chunk_size : Z) :
  text <> [] ->
  len (split_ws text) <= chunk_size ->
  LineBasedChunking.chunk text chunk_size
  = [(join [SPACE] (splitlines text), len (split_ws text))].
Proof.
  intros Hne Hfit. unfold LineBasedChunking.chunk.
  rewrite word_run_fit.
  - now rewrite wsize_splitlines.
  - now rewrite splitlines_nil.
  - now rewrite wsize_splitlines.
Qed.

Lemma line_fits_single_chunk_witness :
  line_example <> []
  /\ len (split_ws line_example) <= 8
  /\ LineBasedChunking.chunk line_example 8
     = [(join [SPACE] (splitlines line_example), len (split_ws line_example))].
Proof.
  assert (H1 : line_example <> []) by discriminate.
  assert (H2 : len (split_ws line_example) <= 8)
    by (vm_compute; discriminate).
  split; [exact H1|]. split; [exact H2|].
  exact (line_fits_single_chunk line_example 8 H1 H2).
Defined.

Lemma word_run_negative (joiner : str) (chunk_size : Z) (units : list str) :
  chunk_size < 0 ->
  WordCount.run joiner chunk_size units
  = map (fun u => (u, len (split_ws u))) units.
Proof.
  intros Hneg. rewrite word_run_groups, word_groups_negative by assumption.
  rewrite map_map. apply map_ext. intros u.
  unfold word_chunk, words. simpl. now rewrite Z.add_0_r.
Qed.

(** X14: with a negative target, line-based chunking returns every line as
    a chunk of its own, with its number of words, and paragraph-based
    chunking every paragraph. *)
Theorem word_negative_target (text : str) (chunk_size : Z) :
  chunk_size < 0 ->
  LineBasedChunking.chunk text chunk_size
  = map (fun u => (u, len (split_ws u))) (splitlines text)
  /\ exists paragraphs,
       split text [LF; LF] = Ok paragraphs
       /\ ParagraphBasedChunking.chunk text chunk_size
          = Ok (map (fun u => (u, len (split_ws u))) paragraphs).
Proof.
  intros Hneg. split.
  - now apply word_run_negative.
  - eexists. split; [reflexivity|].
    rewrite paragraph_chunk_run. now rewrite word_run_negative.
Qed.

Lemma word_negative_target_witness :
  -1 < 0
  /\ LineBasedChunking.chunk line_example (-1)
     = map (fun u => (u, len (split_ws u))) (splitlines line_example)
  /\ exists paragraphs,
       split line_example [LF; LF] = Ok paragraphs
       /\ ParagraphBasedChunking.chunk line_example (-1)
          = Ok (map (fun u => (u, len (split_ws u))) paragraphs).
Proof.
  assert (H : -1 < 0) by lia.
  split; [exact H|].
  exact (word_negative_target line_example (-1) H).
Defined.

Lemma word_run_length (joiner : str) (chunk_size : Z) (units : list str) :
  (length (WordCount.run joiner chunk_size units) <= length units)%nat.
Proof.
  rewrite word_run_groups, length_map.
  rewrite <- (groups_concat (word_flush chunk_size) units) at 2.
  apply length_concat_nonempty, word_groups_nonempty.
Qed.

(** X15: line-based chunking never returns more chunks than the text has
    lines, and paragraph-based chunking never more than it has
    paragraphs. *)
Theorem word_chunks_at_most_units (text : str) (chunk_size : Z) :
  (length (LineBasedChunking.chunk text chunk_size)
   <= length (splitlines text))%nat
  /\ exists paragraphs cs,
       split text [LF; LF] = Ok paragraphs
       /\ ParagraphBasedChunking.chunk text chunk_size = Ok cs
       /\ (length cs <= length paragraphs)%nat.
Proof.
  split; [apply word_run_length|].
  do 2 eexists. split; [reflexivity|]. split; [apply paragraph_chunk_run|].
  apply word_run_length.
Qed.

(* ===================================================================== *)
(** ** Properties of [chunk_iterable] *)
(* ===================================================================== *)

Lemma chunk_iterable_concat {A : Type} (items : list A) (chunk_size : Z) :
  concat (chunk_iterable items chunk_size) = items.
Proof.
  rewrite chunk_iterable_result, concat_app.
  pose proof (chunk_iterable_fold_concat chunk_size items ([], [])) as H.
  simpl in H.
  set (st := fold_left (chunk_iterable_body chunk_size) items ([], [])) in *.
  assert (E : concat (if truthy (snd st) then [snd st] else []) = snd st).
  { destruct (snd st); simpl; [reflexivity | now rewrite app_nil_r]. }
  now rewrite E.
Qed.

Lemma chunk_iterable_count {A : Type} (items : list A) (chunk_size : Z) :
  1 <= chunk_size ->
  len (chunk_iterable items chunk_size)
  = (len items + chunk_size - 1) / chunk_size.
Proof.
  intros Hcs.
  destruct (chunk_iterable_shape items chunk_size Hcs)
    as (full & rest & E & Hfull & Hrest).
  assert (Hsum : len (concat full) = chunk_size * len full).
  { clear E. induction Hfull as [|g full Hg _ IH]; simpl.
    - unfold len. simpl. lia.
    - unfold len in *. rewrite length_app. simpl length. lia. }
  pose proof (chunk_iterable_concat items chunk_size) as Hc.
  rewrite E, concat_app in Hc. rewrite E. rewrite <- Hc.
  unfold len in *. rewrite !length_app, !Nat2Z.inj_add, Hsum.
  destruct Hrest as [->|(r & -> & Hr)]; simpl length.
  - apply Z.div_unique with (r := chunk_size - 1); simpl; lia.
  - apply Z.div_unique with (r := Z.of_nat (length r) - 1);
      simpl; rewrite ?app_nil_r; lia.
Qed.

(** X16: with a target of at least one, token-based chunking cuts the
    tokens exactly as [chunk_iterable] does, and reports every group with
    its decoded text and its length. *)
Theorem token_chunk_is_chunk_iterable (encoder : Encoding) (text : str)
        (chunk_size : Z) :
  1 <= chunk_size ->
  TokenBasedChunking.chunk encoder text chunk_size
  = map (fun g => (decode encoder g, len g))
        (chunk_iterable (encode encoder text) chunk_size).
Proof.
  intros Hcs. rewrite token_chunk_groups.
  now rewrite token_groups_chunk_iterable.
Qed.

Lemma token_chunk_is_chunk_iterable_witness :
  1 <= 3
  /\ TokenBasedChunking.chunk codepoint_encoding (pystr "hello world") 3
     = map (fun g => (decode codepoint_encoding g, len g))
           (chunk_iterable (encode codepoint_encoding (pystr "hello world")) 3).
Proof.
  assert (H : 1 <= 3) by lia.
  split; [exact H|].
  exact (token_chunk_is_chunk_iterable
           codepoint_encoding (pystr "hello world") 3 H).
Defined.

(** X17: whatever the size asked for, the chunks [chunk_iterable] yields,
    put end to end, are the items in their order, and none of them is
    empty. *)
Theorem chunk_iterable_partition {A : Type} (items : list A)
        (chunk_size : Z) :
  concat (chunk_iterable items chunk_size) = items
  /\ Forall (fun c => c <> []) (chunk_iterable items chunk_size).
Proof.
  split; [apply chunk_iterable_concat|].
  rewrite chunk_iterable_result.
  destruct (chunk_iterable_fold_invariant chunk_size
              (fun c : list A => c <> []) (fun _ => True) items)
    with (st := (@nil (list A), @nil A)) as [HP _]; simpl; auto.
  - intros cur x _ _. destruct cur; discriminate.
  - apply Forall_app. split; [exact HP|].
    destruct (snd (fold_left _ items ([], []))) eqn:E; simpl;
      constructor; [discriminate | constructor].
Qed.

(** X18: for a size of at least one, [chunk_iterable] yields chunks of
    exactly [chunk_size] items, then at most one shorter, non-empty chunk;
    their number is the number of items divided by [chunk_size], rounded
    up. *)
Theorem chunk_iterable_sizes {A : Type} (items : list A) (chunk_size : Z) :
  1 <= chunk_size ->
  (exists full rest,
     chunk_iterable items chunk_size = full ++ rest
     /\ Forall (fun c => len c = chunk_size) full
     /\ (rest = [] \/ exists r, rest = [r] /\ 0 < len r < chunk_size))
  /\ len (chunk_iterable items chunk_size)
     = (len items + chunk_size - 1) / chunk_size.
Proof.
  intros Hcs. split.
  - now apply chunk_iterable_shape.
  - now apply chunk_iterable_count.
Qed.

Lemma chunk_iterable_sizes_witness :
  1 <= 2
  /\ (exists full rest,
        chunk_iterable [1; 2; 3; 4; 5]%nat 2 = full ++ rest
        /\ Forall (fun c => len c = 2) full
        /\ (rest = [] \/ exists r, rest = [r] /\ 0 < len r < 2))
  /\ len (chunk_iterable [1; 2; 3; 4; 5]%nat 2)
     = (len [1; 2; 3; 4; 5]%nat + 2 - 1) / 2.
Proof.
  assert (H : 1 <= 2) by lia.
  split; [exact H|].
  exact (chunk_iterable_sizes [1; 2; 3; 4; 5]%nat 2 H).
Defined.

(** X19: for a size of zero or less, [chunk_iterable] never cuts: it
    yields all the items as one chunk (and nothing when there is no
    item). *)
Theorem chunk_iterable_nonpositive {A : Type} (items : list A)
        (chunk_size : Z) :
  chunk_size <= 0 ->
  chunk_iterable items chunk_size
  = match items with [] => [] | _ :: _ => [items] end.
Proof.
  intros Hcs.
  assert (H : forall l cur,
    fold_left (chunk_iterable_body chunk_size) l (@nil (list A), cur)
    = ([], cur ++ l)).
  { induction l as [|x l IH]; intros cur; simpl.
    - now rewrite app_nil_r.
    - unfold chunk_iterable_body at 2. simpl.
      pose proof (len_app_single cur x). pose proof (len_nonneg cur).
      destruct (Z.eqb_spec (len (cur ++ [x])) chunk_size); [lia|].
      rewrite IH. now rewrite <- app_assoc. }
  unfold chunk_iterable. rewrite H. simpl.
  destruct items; reflexivity.
Qed.

Lemma chunk_iterable_nonpositive_witness :
  0 <= 0
  /\ chunk_iterable [1; 2; 3]%nat 0 = [[1; 2; 3]%nat].
Proof.
  assert (H : 0 <= 0) by lia.
  split; [exact H|].
  exact (chunk_iterable_nonpositive [1; 2; 3]%nat 0 H).
Defined.

(** X20: with a target of at least one, the number of chunks of
    token-based chunking is the number of tokens divided by the target,
    rounded up. *)
Theorem token_chunk_count (encoder : Encoding) (text : str) (chunk_size : Z) :
  1 <= chunk_size ->
  len (TokenBasedChunking.chunk encoder text chunk_size)
  = (len (encode encoder text) + chunk_size - 1) / chunk_size.
Proof.
  intros Hcs. rewrite token_chunk_groups, token_groups_chunk_iterable by lia.
  rewrite <- chunk_iterable_count by assumption.
  unfold len. now rewrite length_map.
Qed.

Lemma token_chunk_count_witness :
  1 <= 4
  /\ len (TokenBasedChunking.chunk codepoint_encoding (pystr "hello world") 4)
     = (len (encode codepoint_encoding (pystr "hello world")) + 4 - 1) / 4.
Proof.
  assert (H : 1 <= 4) by lia.
  split; [exact H|].
  exact (token_chunk_count codepoint_encoding (pystr "hello world") 4 H).
Defined.

(* ===================================================================== *)
(** ** Properties of the XML writers *)
(* ===================================================================== *)

(** X21: whatever the text, what [xml_escape] returns contains neither
    "<" nor ">". *)
Theorem xml_escape_has_no_angle_bracket (data : str) :
  ~ In LT (xml_escape data) /\ ~ In GT (xml_escape data).
Proof.
  pose proof (xml_escape_no_markup data) as H. rewrite Forall_forall in H.
  split; intros Hin; destruct (H _ Hin); congruence.
Qed.

(** X22: [xml_escape] loses nothing: two texts with the same escaped form
    are the same text. *)
Theorem xml_escape_injective (a b : str) :
  xml_escape a = xml_escape b -> a = b.
Proof.
  rewrite !xml_escape_chars. apply flat_map_escape_char_inj.
Qed.

Lemma xml_escape_injective_witness :
  xml_escape (pystr "a<b") = xml_escape (pystr "a<b")
  /\ pystr "a<b" = pystr "a<b".
Proof.
  assert (H : xml_escape (pystr "a<b") = xml_escape (pystr "a<b"))
    by reflexivity.
  split; [exact H|].
  exact (xml_escape_injective (pystr "a<b") (pystr "a<b") H).
Defined.

(** X23: [xml_escape] returns a text unchanged exactly when the text
    contains none of "&", "<" and ">". *)
Theorem xml_escape_unchanged (data : str) :
  xml_escape data = data
  <-> Forall (fun c => c <> AMP /\ c <> GT /\ c <> LT) data.
Proof.
  rewrite xml_escape_chars.
  induction data as [|c data IH]; simpl.
  - split; [constructor | reflexivity].
  - pose proof (length_xml_escape data) as Hlen.
    rewrite xml_escape_chars in Hlen.
    destruct (escape_char_cases c)
      as [[Hc E]|[[Hc E]|[[Hc E]|(H1 & H2 & H3 & E)]]]; rewrite E.
    + split; intros H.
      * simpl in H. injection H as _ H.
        apply (f_equal (@length char)) in H. simpl in H. lia.
      * inversion_clear H as [|? ? Hh _]. tauto.
    + split; intros H.
      * subst c. discriminate H.
      * inversion_clear H as [|? ? Hh _]. tauto.
    + split; intros H.
      * subst c. discriminate H.
      * inversion_clear H as [|? ? Hh _]. tauto.
    + simpl. split; intros H.
      * injection H as H. constructor; [auto | now apply IH].
      * inversion_clear H as [|? ? _ Ht]. f_equal. now apply IH.
Qed.



(* ===================================================================== *)
(** ** The texts of the chunks *)
(* ===================================================================== *)

Lemma splitlines_from_no_break (n : nat) : forall (s cur : str),
  (length s <= n)%nat ->
  Forall (fun c => is_linebreak c = false) cur ->
  Forall (Forall (fun c => is_linebreak c = false)) (splitlines_from cur s).
Proof.
  induction n as [|n IH]; intros s cur Hn Hcur.
  - destruct s; [|simpl in Hn; lia].
    destruct cur; cbn [splitlines_from]; constructor;
      [now apply Forall_rev | constructor].
  - destruct s as [|c s].
    { destruct cur; cbn [splitlines_from]; constructor;
        [now apply Forall_rev | constructor]. }
    simpl in Hn. cbn [splitlines_from].
    destruct (is_linebreak c) eqn:Ec.
    + destruct s as [|c' s'].
      * constructor; [now apply Forall_rev | constructor].
      * destruct ((c =? CR)%N && (c' =? LF)%N).
        -- constructor; [now apply Forall_rev|].
           apply IH; [simpl in Hn; lia | constructor].
        -- constructor; [now apply Forall_rev|].
           apply IH; [lia | constructor].
    + apply IH; [lia|]. now constructor.
Qed.

Lemma join_Forall (P : char -> Prop) (sep : str) (parts : list str) :
  Forall P sep -> Forall (Forall P) parts -> Forall P (join sep parts).
Proof.
  intros Hsep. induction 1 as [|p parts Hp Hparts IH]; [constructor|].
  destruct parts as [|q parts]; [exact Hp|].
  rewrite join_cons by discriminate.
  apply Forall_app. split; [exact Hp|]. apply Forall_app. now split.
Qed.

(** X26: line-based chunking returns chunk texts that contain no line
    break at all: every chunk is a single line. *)
Theorem line_chunk_texts_single_line (text : str) (chunk_size : Z) :
  Forall (fun c => Forall (fun ch => is_linebreak ch = false) (fst c))
         (LineBasedChunking.chunk text chunk_size).
Proof.
  unfold LineBasedChunking.chunk. rewrite word_run_groups.
  apply Forall_map, Forall_forall. intros g Hg.
  unfold word_chunk. simpl. apply join_Forall.
  - repeat constructor.
  - apply Forall_forall. intros u Hu.
    assert (Hin : In u (splitlines text)).
    { rewrite <- (groups_concat (word_flush chunk_size) (splitlines text)).
      apply in_concat. eauto. }
    pose proof (splitlines_from_no_break (length text) text []
                  (Nat.le_refl _) (Forall_nil _)) as H.
    rewrite Forall_forall in H. now apply H.
Qed.

Lemma decode_concat (encoder : Encoding) (gs : list (list token)) :
  (forall a b, decode encoder (a ++ b) = decode encoder a ++ decode encoder b) ->
  concat (map (decode encoder) gs) = decode encoder (concat gs).
Proof.
  intros Hom.
  assert (Hnil : decode encoder [] = []).
  { pose proof (Hom [] []) as H. simpl in H.
    apply (f_equal (@length char)) in H. rewrite length_app in H.
    destruct (decode encoder []); [reflexivity | simpl in H; lia]. }
  induction gs as [|g gs IH]; simpl; [now rewrite Hnil|].
  now rewrite Hom, IH.
Qed.

(** X27: when decoding distributes over concatenation of token lists and
    decoding the tokens of the text gives the text back, the texts of
    the chunks of token-based chunking, put end to end, are the text, for
    every target. *)
Theorem token_chunk_texts_concat (encoder : Encoding) (text : str)
        (chunk_size : Z) :
  (forall a b, decode encoder (a ++ b) = decode encoder a ++ decode encoder b) ->
  decode encoder (encode encoder text) = text ->
  concat (map fst (TokenBasedChunking.chunk encoder text chunk_size)) = text.
Proof.
  intros Hom Hinv. rewrite token_chunk_groups, map_map.
  unfold token_chunk. simpl.
  change (fun x : list token => decode encoder x) with (decode encoder).
  rewrite decode_concat by assumption.
  now rewrite groups_concat.
Qed.

Lemma token_chunk_texts_concat_witness :
  (forall a b, decode codepoint_encoding (a ++ b)
               = decode codepoint_encoding a ++ decode codepoint_encoding b)
  /\ decode codepoint_encoding (encode codepoint_encoding (pystr "hello world"))
     = pystr "hello world"
  /\ concat (map fst (TokenBasedChunking.chunk codepoint_encoding
                                               (pystr "hello world") 4))
     = pystr "hello world".
Proof.
  assert (H1 : forall a b, decode codepoint_encoding (a ++ b)
               = decode codepoint_encoding a ++ decode codepoint_encoding b)
    by (intros a b; reflexivity).
  assert (H2 : decode codepoint_encoding
                 (encode codepoint_encoding (pystr "hello world"))
               = pystr "hello world") by reflexivity.
  split; [exact H1|]. split; [exact H2|].
  exact (token_chunk_texts_concat codepoint_encoding (pystr "hello world") 4
           H1 H2).
Defined.
